(** * The Duplicator-Spoiler subtraction game of [src/main.py]

    A shallow embedding of the classes [Game] and [SpoilerBot]:
    - [Game] keeps the position, the player to move and the winner, and
      [Game.perform_move] checks and applies one move;
    - [SpoilerBot.__init__] seeds [winning_strategy] / [winning_moves] and
      [SpoilerBot.find_winning_strategy] extends them by backward induction;
    - [SpoilerBot.pick_smart_move] reads the tables.

    Python integers are unbounded, hence [Z].  A Python [set] of integers is
    a [gset Z], the [dict] from positions to lists of positions is a
    [gmap Z (list Z)].  Methods that mutate [self] and may raise are
    computations in a small state-and-exception monad, so that the state
    left behind by a raising call can be observed. *)

From Stdlib Require Import ZArith String.
From stdpp Require Import base option list strings gmap sets fin_sets fin_maps.

Local Open Scope Z_scope.

(** ** Python values used by the program *)

(** Exceptions the modelled code can raise. *)
Inductive exn : Type :=
  | AssertionError (msg : option string)
  | KeyError
  | TypeError
  | ValueError.

Inductive result (A : Type) : Type :=
  | Ok (a : A)
  | Raise (e : exn).
Arguments Ok {A} a.
Arguments Raise {A} e.

Definition is_ok {A} (r : result A) : bool :=
  match r with Ok _ => true | Raise _ => false end.

(** [range(a, b)]: the integers [a, a+1, ..., b-1], empty when [b <= a]. *)
Definition range (a b : Z) : list Z := seqZ a (b - a).

(** [max(l)] on a list of integers; [ValueError] on the empty list. *)
Definition py_max (l : list Z) : result Z :=
  match l with
  | [] => Raise ValueError
  | x :: l' => Ok (foldl Z.max x l')
  end.

(** [o or []] where [o] is the result of [dict.get]: [None] and the empty
    list are both falsy. *)
Definition or_empty (o : option (list Z)) : list Z :=
  match o with
  | Some (x :: l) => x :: l
  | Some [] => []
  | None => []
  end.

(** [n or None] on an integer: [0] is falsy. *)
Definition or_None (n : Z) : option Z :=
  if decide (n = 0) then None else Some n.

(** ** A state-and-exception monad for methods *)

Definition M (S A : Type) : Type := S → result A * S.

#[global] Instance M_ret {S} : MRet (M S) := λ A a s, (Ok a, s).

#[global] Instance M_bind {S} : MBind (M S) := λ A B k m s,
  match m s with
  | (Ok a, s') => k a s'
  | (Raise e, s') => (Raise e, s')
  end.

Definition get {S} : M S S := λ s, (Ok s, s).
Definition modify {S} (f : S → S) : M S unit := λ s, (Ok tt, f s).
Definition raise {S A} (e : exn) : M S A := λ s, (Raise e, s).

(** [assert c] and [assert c, msg] *)
Definition assert_ {S} (c : S → bool) (msg : option string) : M S unit :=
  λ s, if c s then (Ok tt, s) else (Raise (AssertionError msg), s).

(** ** class Game *)

(** [DUPLICATOR_ID = 0], [SPOILER_ID = 1]. *)
Inductive player : Type := DUPLICATOR_ID | SPOILER_ID.

Definition player_id (p : player) : Z :=
  match p with DUPLICATOR_ID => 0 | SPOILER_ID => 1 end.

Definition player_of_id (n : Z) : player :=
  if decide (n = 0) then DUPLICATOR_ID else SPOILER_ID.

(** [(p + 1) % 2] *)
Definition next_of (p : player) : player :=
  player_of_id ((player_id p + 1) `mod` 2).

(** The lines written by [log_operation], kept as data instead of text. *)
Inductive log_entry : Type :=
  | LogStarted (position final : Z)
  | LogAllowed (max_move position final : Z)
  | LogMode (mode : string)
  | LogMoved (who : player) (move position : Z)
  | LogWon (who : player)
  | LogAdvice (advice : option Z).

Record Game : Type := mkGame {
  next_player : player;
  winner : option player;
  current_position : Z;
  initial_position : Z;
  final_position : Z;
  max_move : Z;
  log_file : list log_entry
}.

Definition set_next_player (p : player) (self : Game) : Game :=
  mkGame p (winner self) (current_position self) (initial_position self)
         (final_position self) (max_move self) (log_file self).

Definition set_winner (w : option player) (self : Game) : Game :=
  mkGame (next_player self) w (current_position self) (initial_position self)
         (final_position self) (max_move self) (log_file self).

Definition set_current_position (p : Z) (self : Game) : Game :=
  mkGame (next_player self) (winner self) p (initial_position self)
         (final_position self) (max_move self) (log_file self).

(** [Game.log_operation] *)
Definition log_operation (message : log_entry) : M Game unit :=
  modify (λ self,
    mkGame (next_player self) (winner self) (current_position self)
           (initial_position self) (final_position self) (max_move self)
           (log_file self ++ [message])).

(** [Game.__init__]: the fields are assigned first, then
    [assert initial_position >= 1], then the log is opened and two lines
    are written.  A constructor that raises yields no object. *)
Definition Game_init (day month year initial_position : Z) : result Game :=
  let self :=
    mkGame DUPLICATOR_ID None initial_position initial_position
           (day + month + year) (day + month) [] in
  let body : M Game unit :=
    (assert_ (λ _, bool_decide (initial_position >= 1)) None ;;
     self ← get ;
     log_operation (LogStarted (current_position self) (final_position self)) ;;
     self ← get ;
     log_operation (LogAllowed (max_move self) (current_position self)
                               (final_position self))) in
  match body self with
  | (Ok _, self') => Ok self'
  | (Raise e, _) => Raise e
  end.

(** [Game.perform_move] *)
Definition perform_move (move : Z) : M Game unit :=
  (assert_ (λ self, bool_decide (winner self = None)) None ;;
   assert_ (λ self, bool_decide (move >= 1)
                    && bool_decide (move <= max_move self)
                    && bool_decide (current_position self + move
                                    <= final_position self))
           (Some "Illegal move") ;;
   modify (λ self, set_current_position (current_position self + move) self) ;;
   self ← get ;
   log_operation (LogMoved (next_player self) move (current_position self)) ;;
   self ← get ;
   (if decide (current_position self = final_position self) then
      modify (λ self, set_winner (Some (next_player self)) self) ;;
      self ← get ;
      match winner self with
      | Some w => log_operation (LogWon w)
      | None => raise KeyError
      end
    else mret tt) ;;
   modify (λ self, set_next_player (next_of (next_player self)) self)).

(** Whether the two assertions of [perform_move] hold in [g]. *)
Definition legal (move : Z) (g : Game) : Prop :=
  winner g = None ∧ 1 ≤ move ≤ max_move g
  ∧ current_position g + move ≤ final_position g.

#[global] Instance legal_dec move g : Decision (legal move g).
Proof. unfold legal. apply _. Defined.

(** ** class SpoilerBot *)

(** The three entries of [mode_implementations]. *)
Inductive mode : Type := random_mode | smart_mode | advisor_mode.

(** [self.mode_implementations[game_mode]]: [KeyError] on any other key. *)
Definition mode_implementations (game_mode : string) : result mode :=
  if decide (game_mode = "random") then Ok random_mode
  else if decide (game_mode = "smart") then Ok smart_mode
  else if decide (game_mode = "advisor") then Ok advisor_mode
  else Raise KeyError.

Record SpoilerBot : Type := mkSpoilerBot {
  game : Game;
  play_mode : mode;
  winning_strategy : gset Z;
  winning_moves : gmap Z (list Z)
}.

Definition set_winning_strategy (ws : gset Z) (self : SpoilerBot) : SpoilerBot :=
  mkSpoilerBot (game self) (play_mode self) ws (winning_moves self).

Definition set_winning_moves (wm : gmap Z (list Z)) (self : SpoilerBot)
  : SpoilerBot :=
  mkSpoilerBot (game self) (play_mode self) (winning_strategy self) wm.

(** The variables live during one round of the [while True] loop of
    [find_winning_strategy]: the object itself (its [winning_moves] is
    assigned inside the [for] loops) and the two locals. *)
Record frame : Type := mkFrame {
  bot : SpoilerBot;
  new_positions : gset Z;
  updated_strategy : bool
}.

(** Line 213:
    [self.winning_moves[x] = (self.winning_moves.get(x) or []) + [opponent_position]] *)
Definition record_move (opponent_position : Z) (self : SpoilerBot) (x : Z)
  : SpoilerBot :=
  set_winning_moves
    (<[x := or_empty (winning_moves self !! x) ++ [opponent_position]]>
       (winning_moves self))
    self.

(** Lines 202-207: the flag [all_winning] after the innermost loop.  The
    [break] only cuts the scan short. *)
Definition all_winning (self : SpoilerBot) (opponent_position : Z) : bool :=
  forallb (λ potential_opponent_next_position,
             bool_decide (potential_opponent_next_position
                          ∈ winning_strategy self))
          (range (opponent_position + 1)
                 (opponent_position + max_move (game self) + 1)).

(** Lines 200-214: the body of [for opponent_position in ...]. *)
Definition visit_opponent (fr : frame) (opponent_position : Z) : frame :=
  let self := bot fr in
  if bool_decide (opponent_position < initial_position (game self))
     || bool_decide (opponent_position ∈ winning_strategy self)
  then fr
  else if all_winning self opponent_position then
    mkFrame
      (foldl (record_move opponent_position) self
             (range (opponent_position - max_move (game self))
                    opponent_position))
      (new_positions fr
       ∪ list_to_set
           (range (initial_position (game self)
                   `max` (opponent_position - max_move (game self)))
                  opponent_position))
      true
  else fr.

(** Lines 199-214: the body of [for i in previous_positions]. *)
Definition visit_position (fr : frame) (i : Z) : frame :=
  let self := bot fr in
  foldl visit_opponent fr
        (range (initial_position (game self) `max` (i - max_move (game self)))
               i).

(** Lines 196-214: one round, up to the end of the outer [for], over the
    positions of [previous_positions] in the order the set enumerates them.
    Python leaves that order open; [scan_order_irrelevant] below shows that
    [new_positions] and [updated_strategy] do not depend on it (only the
    order inside the lists of [winning_moves] does). *)
Definition scan (self : SpoilerBot) (previous_positions : list Z) : frame :=
  foldl visit_position (mkFrame self ∅ false) previous_positions.

(** Lines 195-220: the [while True] loop.  [fuel] bounds the number of
    rounds; [None] means the bound was reached before the [break].
    In the first round [previous_positions] is the very set object
    [self.winning_strategy]; line 215 mutates it only after the [for] has
    finished and line 216 rebinds the name, so no round sees the alias. *)
Fixpoint find_winning_strategy_loop (fuel : nat) (self : SpoilerBot)
    (previous_positions : gset Z) : option SpoilerBot :=
  match fuel with
  | O => None
  | S fuel' =>
      let fr := scan self (elements previous_positions) in
      let self' :=
        set_winning_strategy
          (winning_strategy (bot fr) ∪ new_positions fr) (bot fr) in
      if updated_strategy fr
      then find_winning_strategy_loop fuel' self' (new_positions fr)
      else Some self'
  end.

(** [SpoilerBot.find_winning_strategy] *)
Definition find_winning_strategy (fuel : nat) (self : SpoilerBot)
  : option SpoilerBot :=
  find_winning_strategy_loop fuel self (winning_strategy self).

(** [SpoilerBot.__init__].  [None]: [fuel] rounds did not suffice. *)
Definition SpoilerBot_init (fuel : nat)
    (day month year initial_position : Z) (game_mode : string)
  : option (result SpoilerBot) :=
  match Game_init day month year initial_position with
  | Raise e => Some (Raise e)
  | Ok g =>
      match mode_implementations game_mode with
      | Raise e => Some (Raise e)
      | Ok play =>
          let g := (log_operation (LogMode game_mode) g).2 in
          let winning_strategy : gset Z :=
            list_to_set
              (range ((final_position g - max_move g) `max` initial_position)
                     (final_position g)) in
          let winning_moves : gmap Z (list Z) :=
            gset_to_gmap [final_position g] winning_strategy in
          Ok <$> find_winning_strategy fuel
                   (mkSpoilerBot g play winning_strategy winning_moves)
      end
  end.

(** [SpoilerBot.pick_smart_move]: [max(None)] is a [TypeError], [max([])] a
    [ValueError]. *)
Definition pick_smart_move (self : SpoilerBot) : result (option Z) :=
  let position := current_position (game self) in
  if bool_decide (position ∈ winning_strategy self) then
    match winning_moves self !! position with
    | None => Raise TypeError
    | Some targets =>
        match py_max targets with
        | Ok m => Ok (or_None (m - position))
        | Raise e => Raise e
        end
    end
  else Ok None.

(** [SpoilerBot.play] and the mode methods apply moves to [self.game] only;
    a bot whose game has moved on: *)
Definition with_game (g : Game) (self : SpoilerBot) : SpoilerBot :=
  mkSpoilerBot g (play_mode self) (winning_strategy self) (winning_moves self).

(** The game states that some sequence of successful [perform_move] calls
    leads to. *)
Inductive plays (g : Game) : Game → Prop :=
  | plays_nil : plays g g
  | plays_snoc g1 move g2 :
      plays g g1 → perform_move move g1 = (Ok tt, g2) → plays g g2.

(** ** What the two tables are expected to satisfy *)

(** Every position listed for [x] is a legal move away from [x]. *)
Definition moves_within (g : Game) (wm : gmap Z (list Z)) : Prop :=
  ∀ x l t, wm !! x = Some l → t ∈ l →
    x < t ≤ x + max_move g ∧ t ≤ final_position g.

(** [wm'] has every list of [wm], possibly with more entries at its end. *)
Definition moves_extend (wm wm' : gmap Z (list Z)) : Prop :=
  ∀ x l, wm !! x = Some l → ∃ l', wm' !! x = Some (l ++ l').

Record tables_ok (g : Game) (ws : gset Z) (wm : gmap Z (list Z)) : Prop := {
  strategy_in_range :
    ∀ p, p ∈ ws → initial_position g ≤ p < final_position g;
  strategy_has_moves : ∀ p, p ∈ ws → is_Some (wm !! p);
  moves_legal : moves_within g wm;
  moves_nonempty : ∀ x l, wm !! x = Some l → l ≠ [];
  keys_from_start : ∀ x, is_Some (wm !! x) → initial_position g ≤ x → x ∈ ws
}.

(** What one round keeps true while it runs over positions below [b],
    started from [self]. *)
Record frame_ok (self : SpoilerBot) (b : Z) (fr : frame) : Prop := {
  frame_game : game (bot fr) = game self;
  frame_mode : play_mode (bot fr) = play_mode self;
  frame_strategy : winning_strategy (bot fr) = winning_strategy self;
  frame_tables :
    tables_ok (game self) (winning_strategy self ∪ new_positions fr)
              (winning_moves (bot fr));
  frame_extend : moves_extend (winning_moves self) (winning_moves (bot fr));
  frame_below : ∀ q, q ∈ new_positions fr → q < b - 1
}.

(** An opponent position the scan acts on (lines 200-208): at or above
    [initial_position], not in [winning_strategy], with every position up to
    [max_move] further on in [winning_strategy]. *)
Definition finds (g : Game) (ws : gset Z) (opponent_position : Z) : Prop :=
  initial_position g ≤ opponent_position
  ∧ (opponent_position ∉ ws)
  ∧ ∀ p, opponent_position < p ≤ opponent_position + max_move g → p ∈ ws.

(** [fr'] is [fr] with, when [P] holds, the flag raised and the positions
    of [R] added to [new_positions]; game and strategy are those of [fr]. *)
Definition collects (fr fr' : frame) (P : Prop) (R : Z → Prop) : Prop :=
  game (bot fr') = game (bot fr)
  ∧ winning_strategy (bot fr') = winning_strategy (bot fr)
  ∧ (∀ q, q ∈ new_positions fr' ↔ q ∈ new_positions fr ∨ R q)
  ∧ (updated_strategy fr' = true ↔ updated_strategy fr = true ∨ P).

(** The keys of [mode_implementations]. *)
Definition game_modes : list string := ["random"; "smart"; "advisor"].

(** A number of rounds that is always enough for [find_winning_strategy]. *)
Definition enough_rounds (day month year initial_position : Z) : nat :=
  S (Z.to_nat (day + month + year - initial_position)).

(** ** The closed form of the strategy *)

(** [p] lies a multiple of [max_move + 1] below the final position. *)
Definition on_grid (g : Game) (p : Z) : Prop :=
  (final_position g - p) `mod` (max_move g + 1) = 0.

#[global] Instance on_grid_dec g p : Decision (on_grid g p).
Proof. unfold on_grid. apply _. Defined.

(** Every position listed in [wm] satisfies [Q]. *)
Definition entries_all (Q : Z → Prop) (wm : gmap Z (list Z)) : Prop :=
  ∀ x l t, wm !! x = Some l → t ∈ l → Q t.

(** The state between two rounds of [find_winning_strategy]; [f] is the
    opponent position the last round acted on ([final_position] before the
    first round). *)
Record round_ok (self : SpoilerBot) (previous_positions : gset Z) (f : Z)
  : Prop := {
  round_frontier : on_grid (game self) f;
  round_frontier_le : f ≤ final_position (game self);
  round_strategy :
    ∀ p, p ∈ winning_strategy self
         ↔ initial_position (game self) `max` (f - max_move (game self)) ≤ p
             < final_position (game self)
           ∧ ¬ on_grid (game self) p;
  round_previous :
    ∀ p, p ∈ previous_positions
         ↔ initial_position (game self) `max` (f - max_move (game self)) ≤ p
             < f;
  round_entries : entries_all (on_grid (game self)) (winning_moves self)
}.

(** The player to move at [g] wins if he plays [pick_smart_move] now and at
    each of his later turns, whatever legal moves the other player makes in
    between (and the other player is never left without a move). *)
Inductive smart_wins (self : SpoilerBot) : Game → Prop :=
  | smart_wins_now g d g' :
      pick_smart_move (with_game g self) = Ok (Some d) →
      perform_move d g = (Ok tt, g') →
      winner g' = Some (next_player g) →
      smart_wins self g
  | smart_wins_later g d g' :
      pick_smart_move (with_game g self) = Ok (Some d) →
      perform_move d g = (Ok tt, g') →
      winner g' = None →
      (∃ reply, legal reply g') →
      (∀ reply g'', perform_move reply g' = (Ok tt, g'') →
         winner g'' = None) →
      (∀ reply g'', perform_move reply g' = (Ok tt, g'') →
         smart_wins self g'') →
      smart_wins self g.

(** ** [is_valid_date] *)

(** The list is indexed by [month] only after [1 <= month <= 12] has been
    found true ([and] does not evaluate its right operand otherwise), so the
    [IndexError] of an index out of range cannot occur; the [None] branch
    stands for it. *)
Definition is_valid_date (year month day : Z) : bool :=
  let day_count_for_month : list Z :=
    [0; 31; 28; 31; 30; 31; 30; 31; 31; 30; 31; 30; 31] in
  let day_count_for_month :=
    if bool_decide (year `mod` 4 = 0)
       && (bool_decide (year `mod` 100 ≠ 0)
           || bool_decide (year `mod` 400 = 0))
    then <[2%nat := 29]> day_count_for_month
    else day_count_for_month in
  if bool_decide (1 ≤ month ≤ 12) then
    match day_count_for_month !! Z.to_nat month with
    | Some days => bool_decide (1 ≤ day ≤ days) && bool_decide (year > 1850)
    | None => false
    end
  else false.

(** ** Playing: the console, the random generator and the turns *)

(** What one call of [int(input(...))] meets: a line that is an integer, a
    line that is not ([ValueError]), or an interrupt
    ([KeyboardInterrupt]).  The end of the input ([EOFError]) is the empty
    list of the lines still to come. *)
Inductive keyboard : Type := Typed (n : Z) | NotANumber | CtrlC.

(** The lines that the methods of [SpoilerBot] print themselves (those of
    [log_operation] are in [log_file]). *)
Inductive printed : Type :=
  | GameOn
  | Prompt (position limit : Z)
  | InvalidMove
  | Congratulations
  | Lost.

(** The bot with its game, the lines still to be typed, the random
    generator (the raw draws and how many were used) and the lines
    printed. *)
Record world : Type := mkWorld {
  the_bot : SpoilerBot;
  stdin : list keyboard;
  draws : nat → Z;
  drawn : nat;
  stdout : list printed
}.

Definition set_the_bot (b : SpoilerBot) (w : world) : world :=
  mkWorld b (stdin w) (draws w) (drawn w) (stdout w).

Definition set_stdin (l : list keyboard) (w : world) : world :=
  mkWorld (the_bot w) l (draws w) (drawn w) (stdout w).

(** How a call ends: with a value, with one of the exceptions of [exn],
    with a [KeyboardInterrupt], or not within the calls allowed:
    [TooDeep] when [read_next_move] is still asking after [depth] nested
    calls, [Unfinished] when the loop of [play] is still running after
    [rounds] rounds. *)
Inductive outcome (A : Type) : Type :=
  | Returns (a : A)
  | Raises (e : exn)
  | Interrupted
  | TooDeep
  | Unfinished.
Arguments Returns {A} a.
Arguments Raises {A} e.
Arguments Interrupted {A}.
Arguments TooDeep {A}.
Arguments Unfinished {A}.

Definition IO (A : Type) : Type := world → outcome A * world.

#[global] Instance IO_ret : MRet IO := λ A a w, (Returns a, w).

#[global] Instance IO_bind : MBind IO := λ A B k m w,
  match m w with
  | (Returns a, w') => k a w'
  | (Raises e, w') => (Raises e, w')
  | (Interrupted, w') => (Interrupted, w')
  | (TooDeep, w') => (TooDeep, w')
  | (Unfinished, w') => (Unfinished, w')
  end.

Definition print (line : printed) : IO unit :=
  λ w, (Returns tt,
        mkWorld (the_bot w) (stdin w) (draws w) (drawn w)
                (stdout w ++ [line])).

(** A method of [self.game] called from a method of the bot. *)
Definition on_game {A} (m : M Game A) : IO A := λ w,
  match m (game (the_bot w)) with
  | (Ok a, g) => (Returns a, set_the_bot (with_game g (the_bot w)) w)
  | (Raise e, g) => (Raises e, set_the_bot (with_game g (the_bot w)) w)
  end.

(** [random.randint(a, b)]: [ValueError] when the range is empty, else the
    next draw brought into [a, b]. *)
Definition randint (a b : Z) : IO Z := λ w,
  if bool_decide (a ≤ b)
  then (Returns (a + draws w (drawn w) `mod` (b - a + 1)),
        mkWorld (the_bot w) (stdin w) (draws w) (S (drawn w)) (stdout w))
  else (Raises ValueError, w).

(** [SpoilerBot.read_next_move].  The bare [except] catches the
    [EOFError] of [input], the [ValueError] of [int] and the
    [AssertionError] alike, prints and asks again by a nested call; the
    [KeyboardInterrupt] is raised again. *)
Fixpoint read_next_move (depth : nat) : IO Z := λ w,
  match depth with
  | O => (TooDeep, w)
  | S depth' =>
      let g := game (the_bot w) in
      let limit :=
        max_move g `min` (final_position g - current_position g) in
      let w := (print (Prompt (current_position g) limit) w).2 in
      match stdin w with
      | [] => read_next_move depth' (print InvalidMove w).2
      | CtrlC :: rest => (Interrupted, set_stdin rest w)
      | NotANumber :: rest =>
          read_next_move depth' (print InvalidMove (set_stdin rest w)).2
      | Typed result :: rest =>
          if bool_decide (result ∈ range 1 (limit + 1))
          then (Returns result, set_stdin rest w)
          else read_next_move depth' (print InvalidMove (set_stdin rest w)).2
      end
  end.

(** [SpoilerBot.pick_random_move] *)
Definition pick_random_move : IO Z := λ w,
  let g := game (the_bot w) in
  randint 1 (max_move g `min` (final_position g - current_position g)) w.

(** [self.pick_smart_move()] called on the bot of the world. *)
Definition call_pick_smart_move : IO (option Z) := λ w,
  match pick_smart_move (the_bot w) with
  | Ok advice => (Returns advice, w)
  | Raise e => (Raises e, w)
  end.

(** [self.pick_smart_move() or self.pick_random_move()]: the right operand
    is evaluated when the left one is [None] (or 0). *)
Definition smart_or_random_move : IO Z :=
  smart ← call_pick_smart_move;
  match smart with
  | Some move => if decide (move = 0) then pick_random_move else mret move
  | None => pick_random_move
  end.

(** [if self.game.winner is not None: return], then the rest. *)
Definition unless_won (rest : IO unit) : IO unit := λ w,
  match winner (game (the_bot w)) with
  | Some _ => (Returns tt, w)
  | None => rest w
  end.

(** [SpoilerBot.random_mode] *)
Definition play_random_mode (depth : nat) : IO unit :=
  move ← read_next_move depth;
  on_game (perform_move move) ;;
  unless_won (move ← pick_random_move; on_game (perform_move move)).

(** [SpoilerBot.smart_mode] *)
Definition play_smart_mode (depth : nat) : IO unit :=
  move ← read_next_move depth;
  on_game (perform_move move) ;;
  unless_won (move ← smart_or_random_move; on_game (perform_move move)).

(** [SpoilerBot.advisor_mode] *)
Definition play_advisor_mode (depth : nat) : IO unit :=
  advised_move ← call_pick_smart_move;
  on_game (log_operation (LogAdvice advised_move)) ;;
  move ← read_next_move depth;
  on_game (perform_move move) ;;
  unless_won (move ← smart_or_random_move; on_game (perform_move move)).

(** [self.play_mode()] *)
Definition call_play_mode (depth : nat) : IO unit := λ w,
  match play_mode (the_bot w) with
  | random_mode => play_random_mode depth w
  | smart_mode => play_smart_mode depth w
  | advisor_mode => play_advisor_mode depth w
  end.

(** [while self.game.winner is None: self.play_mode()] *)
Fixpoint play_loop (rounds depth : nat) : IO unit := λ w,
  match rounds with
  | O => (Unfinished, w)
  | S rounds' =>
      match winner (game (the_bot w)) with
      | None => (call_play_mode depth ;; play_loop rounds' depth) w
      | Some _ => (Returns tt, w)
      end
  end.

#[global] Instance player_eq_dec : EqDecision player.
Proof. solve_decision. Defined.

(** Lines 227-230: the message after the loop. *)
Definition announce : IO unit := λ w,
  if decide (winner (game (the_bot w)) = Some DUPLICATOR_ID)
  then print Congratulations w
  else print Lost w.

(** [SpoilerBot.play] *)
Definition play (rounds depth : nat) : IO unit :=
  print GameOn ;; play_loop rounds depth ;; announce.

(** A world in which the bot [self], as constructed, is playing: its
    tables and mode are untouched and its game has kept its bounds. *)
Definition playing (self : SpoilerBot) (w : world) : Prop :=
  winning_strategy (the_bot w) = winning_strategy self
  ∧ winning_moves (the_bot w) = winning_moves self
  ∧ play_mode (the_bot w) = play_mode self
  ∧ initial_position (game (the_bot w)) = initial_position (game self)
  ∧ final_position (game (the_bot w)) = final_position (game self)
  ∧ max_move (game (the_bot w)) = max_move (game self).

(** One turn of the loop of [play] that ran to its end, seen on the game:
    the move read for the Duplicator and, unless it won, the reply of the
    bot, which is the smart move whenever there is one and the mode is not
    the random one. *)
Definition round (self : SpoilerBot) (g g' : Game) : Prop :=
  ∃ move g1,
    perform_move move g = (Ok tt, g1)
    ∧ (winner g1 ≠ None ∧ g' = g1
       ∨ winner g1 = None
         ∧ ∃ reply,
             perform_move reply g1 = (Ok tt, g')
             ∧ (play_mode self ≠ random_mode →
                pick_smart_move (with_game g1 self) = Ok (Some reply)
                ∨ pick_smart_move (with_game g1 self) = Ok None)).

(** * Properties of [Game] *)

Section game_properties.

Implicit Types (g : Game) (move : Z).

Lemma next_of_DUPLICATOR : next_of DUPLICATOR_ID = SPOILER_ID.
Proof. reflexivity. Qed.

Lemma next_of_SPOILER : next_of SPOILER_ID = DUPLICATOR_ID.
Proof. reflexivity. Qed.

Lemma next_of_ne (p : player) : next_of p ≠ p.
Proof. by destruct p. Qed.

Ltac run_method :=
  cbv [perform_move mbind M_bind mret M_ret assert_ modify get raise
       log_operation set_current_position set_winner set_next_player];
  cbn [current_position final_position winner next_player max_move
       initial_position log_file].

Lemma perform_move_legal move g :
  legal move g →
  perform_move move g =
  (Ok tt,
   mkGame (next_of (next_player g))
          (if decide (current_position g + move = final_position g)
           then Some (next_player g) else None)
          (current_position g + move)
          (initial_position g) (final_position g) (max_move g)
          (log_file g
           ++ [LogMoved (next_player g) move (current_position g + move)]
           ++ (if decide (current_position g + move = final_position g)
               then [LogWon (next_player g)] else []))).
Proof.
  intros (Hw & [H1 H2] & H3). run_method.
  rewrite !bool_decide_eq_true_2 by (done || lia). cbn.
  destruct (decide _) as [Heq|Hne]; cbn.
  - by rewrite <- app_assoc.
  - by rewrite Hw.
Qed.

Lemma perform_move_illegal move g :
  ¬ legal move g → ∃ e, perform_move move g = (Raise e, g).
Proof.
  intros Hnot. run_method.
  destruct (bool_decide (winner g = None)) eqn:Hw; [|eauto].
  apply bool_decide_eq_true in Hw.
  destruct (bool_decide (move >= 1)) eqn:H1; cbn; [|eauto].
  destruct (bool_decide (move <= max_move g)) eqn:H2; cbn; [|eauto].
  destruct (bool_decide (_ <= final_position g)) eqn:H3; cbn; [|eauto].
  apply bool_decide_eq_true in H1, H2, H3.
  destruct Hnot. unfold legal. repeat split; (done || lia).
Qed.

Lemma perform_move_raise_inv move g e g' :
  perform_move move g = (Raise e, g') → ¬ legal move g ∧ g' = g.
Proof.
  intros Hrun. destruct (decide (legal move g)) as [Hl|Hl].
  - rewrite (perform_move_legal _ _ Hl) in Hrun. discriminate.
  - destruct (perform_move_illegal _ _ Hl) as [e' He'].
    rewrite He' in Hrun. injection Hrun as _ <-. done.
Qed.

Lemma perform_move_ok_inv move g g' :
  perform_move move g = (Ok tt, g') → legal move g.
Proof.
  intros Hrun. destruct (decide (legal move g)) as [Hl|Hl]; [done|].
  destruct (perform_move_illegal _ _ Hl) as [e He].
  rewrite He in Hrun. discriminate.
Qed.

Lemma Game_init_ok day month year position :
  1 ≤ position →
  Game_init day month year position =
  Ok (mkGame DUPLICATOR_ID None position position
             (day + month + year) (day + month)
             [LogStarted position (day + month + year);
              LogAllowed (day + month) position (day + month + year)]).
Proof.
  intros Hpos. unfold Game_init. run_method.
  by rewrite bool_decide_eq_true_2 by lia.
Qed.

Lemma Game_init_raise day month year position :
  position < 1 →
  Game_init day month year position = Raise (AssertionError None).
Proof.
  intros Hpos. unfold Game_init. run_method.
  by rewrite bool_decide_eq_false_2 by lia.
Qed.

(** C6 (as amended).  A move that passes both assertions succeeds, adds
    [move] to [current_position], and records [next_player] (the mover) as
    [winner] exactly when the final position is reached.  [next_player] is
    toggled by every successful move, the winning one included. *)
Theorem perform_move_success g move :
  winner g = None →
  1 ≤ move ≤ max_move g →
  current_position g + move ≤ final_position g →
  ∃ g', perform_move move g = (Ok tt, g')
        ∧ current_position g' = current_position g + move
        ∧ (current_position g' = final_position g' →
           winner g' = Some (next_player g))
        ∧ (current_position g' ≠ final_position g' → winner g' = None)
        ∧ next_player g' = next_of (next_player g)
        ∧ next_player g' ≠ next_player g.
Proof.
  intros Hw Hmove Hfin. eexists. split.
  { apply perform_move_legal. by unfold legal. }
  cbn. repeat split.
  - intros ?. by rewrite decide_True.
  - intros ?. by rewrite decide_False.
  - apply next_of_ne.
Qed.

Lemma perform_move_success_witness :
  ∃ g', perform_move 2 (mkGame SPOILER_ID None 3 1 10 2 []) = (Ok tt, g')
        ∧ current_position g' = 5
        ∧ next_player g' = DUPLICATOR_ID.
Proof.
  destruct (perform_move_success (mkGame SPOILER_ID None 3 1 10 2 []) 2)
    as (g' & Hrun & Hpos & _ & _ & Hnext & _);
    [reflexivity | cbn; lia | cbn; lia |].
  exists g'. repeat split; assumption.
Defined.

(** C6 (as stated) fails: the move from 9 to the final position 10 wins the
    game for the Duplicator and still hands the turn to the Spoiler. *)
Lemma perform_move_winning_move_toggles :
  ∃ g g', Game_init 1 1 8 9 = Ok g
          ∧ legal 1 g
          ∧ perform_move 1 g = (Ok tt, g')
          ∧ current_position g' = final_position g'
          ∧ winner g' = Some DUPLICATOR_ID
          ∧ next_player g = DUPLICATOR_ID
          ∧ next_player g' = SPOILER_ID
          ∧ next_player g' ≠ next_player g.
Proof.
  do 2 eexists. split; [reflexivity|].
  split; [by repeat split|].
  split; [reflexivity|]. by repeat split.
Qed.

(** C7.  [perform_move] raises exactly when the winner is already set, or
    the move is outside [1, max_move], or it would pass the final position.
    The player to move plays no part in that: swapping [next_player] never
    changes whether the call succeeds. *)
Theorem perform_move_raises_iff g move :
  (is_ok (perform_move move g).1 = false
   ↔ winner g ≠ None ∨ move < 1 ∨ max_move g < move
     ∨ final_position g < current_position g + move)
  ∧ ∀ p, is_ok (perform_move move (set_next_player p g)).1
         = is_ok (perform_move move g).1.
Proof.
  assert (Hiff : ∀ g', is_ok (perform_move move g').1 = false ↔ ¬ legal move g').
  { intros g'. destruct (decide (legal move g')) as [Hl|Hl].
    - rewrite (perform_move_legal _ _ Hl). cbn. split; [done|tauto].
    - destruct (perform_move_illegal _ _ Hl) as [e ->]. cbn. tauto. }
  split.
  - rewrite Hiff. unfold legal. split.
    + intros H. destruct (decide (winner g = None)) as [Hw|Hw]; [right|by left].
      assert (¬ (1 ≤ move ≤ max_move g
                 ∧ current_position g + move ≤ final_position g)) by tauto.
      lia.
    + intros H (Hw & Hm & Hf). destruct H as [H|H]; [done|lia].
  - intros p.
    assert (legal move (set_next_player p g) ↔ legal move g) as Hsame by done.
    destruct (is_ok (perform_move move g).1) eqn:Hg;
      destruct (is_ok (perform_move move (set_next_player p g)).1) eqn:Hp;
      try done.
    + apply Hiff in Hp. rewrite Hsame in Hp. apply Hiff in Hp. congruence.
    + apply Hiff in Hg. rewrite <- Hsame in Hg. apply Hiff in Hg. congruence.
Qed.

(** Two calls in a row succeed as soon as each passes the two assertions,
    whoever is recorded as the player to move. *)
Lemma perform_move_twice g move1 g1 move2 :
  perform_move move1 g = (Ok tt, g1) →
  legal move2 g1 →
  ∃ g2, perform_move move2 g1 = (Ok tt, g2).
Proof. intros _ Hl. eexists. by apply perform_move_legal. Qed.

(** The invariant kept by successful moves. *)
Lemma perform_move_invariant g move g' :
  perform_move move g = (Ok tt, g') →
  initial_position g ≤ current_position g ≤ final_position g →
  (is_Some (winner g) ↔ current_position g = final_position g) →
  initial_position g' = initial_position g
  ∧ final_position g' = final_position g
  ∧ max_move g' = max_move g
  ∧ initial_position g' ≤ current_position g' ≤ final_position g'
  ∧ (is_Some (winner g') ↔ current_position g' = final_position g').
Proof.
  intros Hrun Hpos Hwin.
  pose proof (perform_move_ok_inv _ _ _ Hrun) as Hl.
  rewrite (perform_move_legal _ _ Hl) in Hrun.
  injection Hrun as <-. destruct Hl as (Hw & Hmove & Hfin). cbn.
  repeat split; try lia.
  - destruct (decide _); [done|]. by intros [? ?].
  - intros Heq. by rewrite decide_True.
Qed.

(** C8.  In a game built with [1 <= initial_position < final_position],
    every state reached by successful moves has its position between the
    initial and the final one, and has a winner exactly at the final
    position. *)
Theorem plays_invariant day month year position g0 g :
  1 ≤ position →
  position < day + month + year →
  Game_init day month year position = Ok g0 →
  plays g0 g →
  initial_position g = position
  ∧ final_position g = day + month + year
  ∧ position ≤ current_position g ≤ day + month + year
  ∧ (is_Some (winner g) ↔ current_position g = day + month + year).
Proof.
  intros Hpos Hlt Hinit Hplays.
  rewrite Game_init_ok in Hinit by done. injection Hinit as <-.
  induction Hplays as [|g1 move g2 _ IH Hrun].
  - cbn. split_and!; try lia. split; [by intros [? ?]|lia].
  - destruct IH as (Hi & Hf & Hc & Hw).
    destruct (perform_move_invariant _ _ _ Hrun) as (Hi' & Hf' & _ & Hc' & Hw').
    { lia. }
    { by rewrite Hf. }
    rewrite Hi' , Hf' in *. rewrite Hi, Hf in *. done.
Qed.

Lemma plays_invariant_witness :
  ∃ g0 g, Game_init 1 1 8 7 = Ok g0
          ∧ plays g0 g
          ∧ winner g = Some SPOILER_ID
          ∧ 7 ≤ current_position g ≤ 1 + 1 + 8
          ∧ (is_Some (winner g) ↔ current_position g = 1 + 1 + 8).
Proof.
  eexists _, _. split; [reflexivity|].
  assert (∃ g, g = (perform_move 1 (perform_move 2
            (mkGame DUPLICATOR_ID None 7 7 10 2
               [LogStarted 7 10; LogAllowed 2 7 10])).2).2) as [g Hg].
  { eexists. reflexivity. }
  vm_compute in Hg.
  assert (plays (mkGame DUPLICATOR_ID None 7 7 10 2
                   [LogStarted 7 10; LogAllowed 2 7 10]) g) as Hplays.
  { subst g.
    eapply (plays_snoc _ _ 1); [eapply (plays_snoc _ _ 2); [apply plays_nil|] |];
      reflexivity. }
  pose proof (plays_invariant 1 1 8 7 _ g ltac:(lia) ltac:(lia)
                eq_refl Hplays) as (_ & _ & Hpos & Hwin).
  subst g. split; [exact Hplays|]. split; [reflexivity|].
  split; [exact Hpos|exact Hwin].
Defined.

(** C9 (as amended).  [Game.__init__] checks one thing only,
    [initial_position >= 1]: it succeeds exactly then, whatever the span
    [final_position - initial_position] and the maximum move are, and it
    raises an [AssertionError] for any smaller initial position. *)
Theorem Game_init_succeeds_iff day month year position :
  (is_ok (Game_init day month year position) = true ↔ 1 ≤ position)
  ∧ (1 ≤ position →
     ∃ g, Game_init day month year position = Ok g
          ∧ next_player g = DUPLICATOR_ID ∧ winner g = None
          ∧ current_position g = position ∧ initial_position g = position
          ∧ final_position g = day + month + year
          ∧ max_move g = day + month)
  ∧ (position < 1 →
     Game_init day month year position = Raise (AssertionError None)).
Proof.
  split_and!.
  - destruct (decide (1 ≤ position)) as [Hpos|Hpos].
    + by rewrite Game_init_ok.
    + rewrite Game_init_raise by lia. done.
  - intros Hpos. eexists. split; [by apply Game_init_ok|done].
  - apply Game_init_raise.
Qed.

(** C9 (as stated) fails: a game whose initial position is the final one,
    and a game whose maximum move is 0, are both constructed. *)
Lemma Game_init_accepts_empty_span :
  (∃ g, Game_init 1 1 2000 2002 = Ok g
        ∧ final_position g - initial_position g < 1)
  ∧ (∃ g, Game_init 0 0 5 1 = Ok g ∧ max_move g < 1).
Proof. split; eexists; (split; [reflexivity|done]). Qed.

(** C10.  A call of [perform_move] that raises leaves the game as it was:
    position, winner and player to move are unchanged (and so is the log). *)
Theorem perform_move_atomic g move e g' :
  perform_move move g = (Raise e, g') →
  current_position g' = current_position g
  ∧ winner g' = winner g
  ∧ next_player g' = next_player g
  ∧ log_file g' = log_file g.
Proof. intros Hrun. by apply perform_move_raise_inv in Hrun as [_ ->]. Qed.

Lemma perform_move_atomic_witness :
  let g := mkGame SPOILER_ID None 9 1 10 2 [] in
  ∃ e g', perform_move 2 g = (Raise e, g')
          ∧ current_position g' = 9 ∧ winner g' = None
          ∧ next_player g' = SPOILER_ID ∧ log_file g' = [].
Proof.
  intros g. eexists _, _. split; [reflexivity|].
  exact (perform_move_atomic g 2 _ _ eq_refl).
Defined.

End game_properties.

(** * Properties of [SpoilerBot] *)

Section strategy_properties.

Implicit Types (self : SpoilerBot) (fr : frame) (wm : gmap Z (list Z)).

Lemma elem_of_range x a b : x ∈ range a b ↔ a ≤ x < b.
Proof. unfold range. rewrite elem_of_seqZ. lia. Qed.

Lemma NoDup_range a b : NoDup (range a b).
Proof. apply NoDup_seqZ. Qed.

Lemma or_empty_Some l : or_empty (Some l) = l.
Proof. by destruct l. Qed.

Lemma py_max_elem l m : py_max l = Ok m → m ∈ l.
Proof.
  destruct l as [|x l]; [done|]. cbn. intros [= <-].
  revert x. induction l as [|y l IH]; intros x; cbn.
  - apply list_elem_of_here.
  - pose proof (IH (x `max` y)) as Hin.
    apply elem_of_cons in Hin as [Heq|Hin].
    + rewrite Heq. destruct (Z.max_spec x y) as [[_ ->]|[_ ->]].
      * apply list_elem_of_further, list_elem_of_here.
      * apply list_elem_of_here.
    + by do 2 apply list_elem_of_further.
Qed.

Lemma py_max_nonempty l : l ≠ [] → ∃ m, py_max l = Ok m.
Proof. destruct l; [done|]. cbn. eauto. Qed.

Lemma moves_extend_refl wm : moves_extend wm wm.
Proof. intros x l Hx. exists []. by rewrite app_nil_r. Qed.

Lemma moves_extend_trans wm1 wm2 wm3 :
  moves_extend wm1 wm2 → moves_extend wm2 wm3 → moves_extend wm1 wm3.
Proof.
  intros H12 H23 x l Hx.
  destruct (H12 _ _ Hx) as [l1 H1]. destruct (H23 _ _ H1) as [l2 H2].
  exists (l1 ++ l2). by rewrite app_assoc.
Qed.

(** Lines 212-213 touch [winning_moves] only, at the positions of the
    range, each of which gets [opponent_position] added once. *)
Lemma record_moves_fields opp xs self :
  game (foldl (record_move opp) self xs) = game self
  ∧ play_mode (foldl (record_move opp) self xs) = play_mode self
  ∧ winning_strategy (foldl (record_move opp) self xs) = winning_strategy self.
Proof.
  revert self. induction xs as [|a xs IH]; intros self; [done|].
  cbn. destruct (IH (record_move opp self a)) as (-> & -> & ->). done.
Qed.

Lemma record_moves_lookup opp xs self x :
  NoDup xs →
  winning_moves (foldl (record_move opp) self xs) !! x
  = if decide (x ∈ xs)
    then Some (or_empty (winning_moves self !! x) ++ [opp])
    else winning_moves self !! x.
Proof.
  revert self. induction xs as [|a xs IH]; intros self Hnd.
  { cbn. rewrite decide_False; [done|]. apply not_elem_of_nil. }
  apply NoDup_cons in Hnd as [Ha Hnd]. cbn. rewrite IH by done. cbn.
  destruct (decide (x = a)) as [->|Hne].
  - rewrite (decide_False _ _ Ha), decide_True by apply list_elem_of_here.
    by rewrite lookup_insert_eq.
  - rewrite lookup_insert_ne by done.
    destruct (decide (x ∈ xs)) as [Hin|Hin].
    + rewrite decide_True; [done|]. by apply list_elem_of_further.
    + rewrite decide_False; [done|]. rewrite elem_of_cons. tauto.
Qed.

(** One opponent position below [b] keeps the frame in order. *)
Lemma visit_opponent_ok self b fr opp :
  frame_ok self b fr →
  opp < b → b ≤ final_position (game self) →
  frame_ok self b (visit_opponent fr opp).
Proof.
  intros Hfr Hopp Hb. unfold visit_opponent.
  destruct (bool_decide (opp < _) || bool_decide (opp ∈ _)) eqn:Hskip; [done|].
  destruct (all_winning (bot fr) opp) eqn:Hall; [|done].
  apply orb_false_iff in Hskip as [Hlow Hin].
  apply bool_decide_eq_false in Hlow, Hin.
  destruct Hfr as [Hg Hm Hs Ht He Hbelow].
  rewrite Hg in *. rewrite Hs in Hin.
  set (xs := range (opp - max_move (game self)) opp).
  pose proof (record_moves_fields opp xs (bot fr)) as (Hg' & Hm' & Hs').
  assert (Hlook := λ x, record_moves_lookup opp xs (bot fr) x (NoDup_range _ _)).
  destruct Ht as [Hrange Hhas Hlegal Hne Hkeys].
  constructor; cbn.
  - by rewrite Hg'.
  - by rewrite Hm'.
  - by rewrite Hs'.
  - constructor.
    + intros p Hp. rewrite union_assoc_L in Hp.
      apply elem_of_union in Hp as [Hp|Hp]; [by apply Hrange|].
      apply elem_of_list_to_set, elem_of_range in Hp. lia.
    + intros p Hp. rewrite Hlook.
      destruct (decide (p ∈ xs)) as [Hx|Hx]; [done|].
      apply Hhas. rewrite union_assoc_L in Hp.
      apply elem_of_union in Hp as [Hp|Hp]; [done|].
      apply elem_of_list_to_set, elem_of_range in Hp.
      destruct Hx. apply elem_of_range. lia.
    + intros x l t. rewrite Hlook. destruct (decide (x ∈ xs)) as [Hx|Hx].
      * intros [= <-] [Ht|Ht]%elem_of_app.
        -- destruct (winning_moves (bot fr) !! x) as [l0|] eqn:Hl0.
           ++ rewrite or_empty_Some in Ht. by eapply Hlegal.
           ++ by apply elem_of_nil in Ht.
        -- apply list_elem_of_singleton in Ht as ->.
           apply elem_of_range in Hx. lia.
      * apply Hlegal.
    + intros x l. rewrite Hlook. destruct (decide (x ∈ xs)) as [Hx|Hx].
      * intros [= <-] [_ ?]%app_eq_nil. done.
      * apply Hne.
    + intros x. rewrite Hlook, union_assoc_L.
      destruct (decide (x ∈ xs)) as [Hx|Hx].
      * intros _ Hi. apply elem_of_union_r, elem_of_list_to_set, elem_of_range.
        apply elem_of_range in Hx. lia.
      * intros Hsome Hi. by apply elem_of_union_l, Hkeys.
  - intros x l Hx. destruct (He x l Hx) as [l' Hl']. rewrite Hlook.
    destruct (decide (x ∈ xs)) as [_|_]; [|by eauto].
    rewrite Hl', or_empty_Some. exists (l' ++ [opp]). by rewrite app_assoc.
  - intros q [Hq|Hq]%elem_of_union; [by apply Hbelow|].
    apply elem_of_list_to_set, elem_of_range in Hq. lia.
Qed.

Lemma visit_opponents_ok self b opps fr :
  frame_ok self b fr →
  (∀ o, o ∈ opps → o < b) → b ≤ final_position (game self) →
  frame_ok self b (foldl visit_opponent fr opps).
Proof.
  revert fr. induction opps as [|o opps IH]; intros fr Hfr Hopps Hb; [done|].
  cbn. apply IH; [|by intros; apply Hopps, list_elem_of_further|done].
  apply visit_opponent_ok; [done| |done]. apply Hopps, list_elem_of_here.
Qed.

Lemma visit_position_ok self b fr i :
  frame_ok self b fr →
  i < b → b ≤ final_position (game self) →
  frame_ok self b (visit_position fr i).
Proof.
  intros Hfr Hi Hb. unfold visit_position.
  apply visit_opponents_ok; [done| |done].
  intros o Ho%elem_of_range. lia.
Qed.

(** A round over positions below [b], started on tables in order. *)
Lemma scan_ok self b previous_positions :
  tables_ok (game self) (winning_strategy self) (winning_moves self) →
  (∀ i, i ∈ previous_positions → i < b) →
  b ≤ final_position (game self) →
  frame_ok self b (scan self previous_positions).
Proof.
  intros Ht Hprev Hb. unfold scan.
  assert (frame_ok self b (mkFrame self ∅ false)) as Hfr.
  { constructor; cbn;
      [done | done | done | by rewrite union_empty_r_L
      | apply moves_extend_refl | by intros q Hq%not_elem_of_empty]. }
  revert Hfr Hprev. generalize (mkFrame self ∅ false).
  induction previous_positions as [|i l IH]; intros fr Hfr Hprev; [done|].
  cbn. apply IH; [|by intros; apply Hprev, list_elem_of_further].
  apply visit_position_ok; [done| |done]. apply Hprev, list_elem_of_here.
Qed.

(** ** What a round finds does not depend on the order of enumeration *)

Lemma all_winning_true self opp :
  all_winning self opp = true
  ↔ ∀ p, opp < p ≤ opp + max_move (game self) → p ∈ winning_strategy self.
Proof.
  unfold all_winning. rewrite forallb_forall. split.
  - intros Hall p Hp. eapply bool_decide_eq_true, Hall.
    apply list_elem_of_In, elem_of_range. lia.
  - intros Hall p Hp%list_elem_of_In%elem_of_range.
    apply bool_decide_eq_true, Hall. lia.
Qed.

Lemma visit_opponent_collects g ws fr opp :
  game (bot fr) = g → winning_strategy (bot fr) = ws →
  collects fr (visit_opponent fr opp)
    (finds g ws opp)
    (λ q, finds g ws opp
          ∧ initial_position g `max` (opp - max_move g) ≤ q < opp).
Proof.
  intros <- <-. unfold visit_opponent, collects.
  destruct (bool_decide (opp < _) || bool_decide (opp ∈ _)) eqn:Hskip;
    [|destruct (all_winning (bot fr) opp) eqn:Hall]; cbn.
  - assert (¬ finds (game (bot fr)) (winning_strategy (bot fr)) opp) as Hnot.
    { intros (Hlow & Hin & _).
      apply orb_true_iff in Hskip as [Hs|Hs]; apply bool_decide_eq_true in Hs;
        [lia|done]. }
    split_and!; [done|done|intros q; tauto|tauto].
  - assert (finds (game (bot fr)) (winning_strategy (bot fr)) opp) as Hfinds.
    { apply orb_false_iff in Hskip as [Hlow Hin].
      apply bool_decide_eq_false in Hlow, Hin.
      split_and!; [lia|done|by apply all_winning_true]. }
    destruct (record_moves_fields opp
                (range (opp - max_move (game (bot fr))) opp) (bot fr))
      as (-> & _ & ->).
    split_and!; [done|done|intros q|naive_solver].
    rewrite elem_of_union, elem_of_list_to_set, elem_of_range. tauto.
  - assert (¬ finds (game (bot fr)) (winning_strategy (bot fr)) opp) as Hnot.
    { intros (_ & _ & Hall'%all_winning_true). congruence. }
    split_and!; [done|done|intros q; tauto|tauto].
Qed.

Lemma foldl_collects {A} (step : frame → A → frame) g ws
    (P : A → Prop) (R : A → Z → Prop) :
  (∀ fr a, game (bot fr) = g → winning_strategy (bot fr) = ws →
           collects fr (step fr a) (P a) (R a)) →
  ∀ l fr, game (bot fr) = g → winning_strategy (bot fr) = ws →
    collects fr (foldl step fr l)
      (∃ a, a ∈ l ∧ P a) (λ q, ∃ a, a ∈ l ∧ R a q).
Proof.
  intros Hstep l. induction l as [|a l IH]; intros fr Hg Hws.
  { unfold collects. cbn. split_and!; [done|done|intros q|]; split;
      try (by left); (intros [?|(? & []%elem_of_nil & _)]; done). }
  destruct (Hstep fr a Hg Hws) as (Hg1 & Hws1 & Hnew1 & Hupd1).
  destruct (IH (step fr a)) as (Hg2 & Hws2 & Hnew2 & Hupd2); [congruence..|].
  unfold collects. cbn. split_and!; [congruence|congruence|intros q|].
  - rewrite Hnew2, Hnew1. split.
    + intros [[?|?]|(b & ? & ?)]; [by left|right..].
      * exists a. split; [apply list_elem_of_here|done].
      * exists b. split; [by apply list_elem_of_further|done].
    + intros [?|(b & [->|?]%elem_of_cons & ?)]; [by left; left|by left; right|].
      right. by exists b.
  - rewrite Hupd2, Hupd1. split.
    + intros [[?|?]|(b & ? & ?)]; [by left|right..].
      * exists a. split; [apply list_elem_of_here|done].
      * exists b. split; [by apply list_elem_of_further|done].
    + intros [?|(b & [->|?]%elem_of_cons & ?)]; [by left; left|by left; right|].
      right. by exists b.
Qed.

(** One round, whatever the order of [previous_positions]: the flag is
    raised when some position [i] of the list has an opponent position
    within [max_move] below it that [finds] accepts, and [new_positions]
    are the positions within [max_move] below such opponent positions,
    from [initial_position] on. *)
Lemma scan_collects self previous_positions :
  let g := game self in
  let ws := winning_strategy self in
  let reach i opp := initial_position g `max` (i - max_move g) ≤ opp < i in
  collects (mkFrame self ∅ false) (scan self previous_positions)
    (∃ i, i ∈ previous_positions ∧ ∃ opp, reach i opp ∧ finds g ws opp)
    (λ q, ∃ i, i ∈ previous_positions
               ∧ ∃ opp, reach i opp ∧ finds g ws opp ∧ reach opp q).
Proof.
  intros g ws reach. unfold scan.
  apply (foldl_collects visit_position g ws
           (λ i, ∃ opp, reach i opp ∧ finds g ws opp)
           (λ i q, ∃ opp, reach i opp ∧ finds g ws opp ∧ reach opp q));
    [|done..].
  intros fr i Hg Hws. unfold visit_position.
  destruct (foldl_collects visit_opponent g ws
              (λ opp, finds g ws opp)
              (λ opp q, finds g ws opp ∧ reach opp q)
              (visit_opponent_collects g ws)
              (range (initial_position (game (bot fr))
                      `max` (i - max_move (game (bot fr)))) i)
              fr Hg Hws)
    as (Hg' & Hws' & Hnew & Hupd).
  unfold collects. split_and!; [done|done|intros q|].
  - rewrite Hnew, Hg. apply or_iff_compat_l.
    split; intros (opp & Hopp & ?); exists opp.
    + apply elem_of_range in Hopp. by split.
    + split; [by apply elem_of_range|tauto].
  - rewrite Hupd, Hg. apply or_iff_compat_l.
    split; intros (opp & Hopp & ?); exists opp.
    + apply elem_of_range in Hopp. by split.
    + split; [by apply elem_of_range|done].
Qed.


(** More fuel does not change a result already obtained. *)
Lemma find_winning_strategy_loop_mono fuel fuel' self previous_positions r :
  find_winning_strategy_loop fuel self previous_positions = Some r →
  (fuel ≤ fuel')%nat →
  find_winning_strategy_loop fuel' self previous_positions = Some r.
Proof.
  revert fuel' self previous_positions.
  induction fuel as [|fuel IH]; intros fuel' self prev Hrun Hle; [done|].
  destruct fuel' as [|fuel']; [lia|]. cbn in Hrun |- *.
  destruct (updated_strategy _); [|done]. apply IH; [done|lia].
Qed.

(** The [while True] loop stops.  Every position of a round's
    [new_positions] lies below some position of [previous_positions], so an
    upper bound [b] of [previous_positions] drops from round to round, and
    no position is below [initial_position]: a round whose
    [previous_positions] is empty finds nothing and breaks. *)
Lemma find_winning_strategy_loop_terminates fuel self previous_positions b :
  tables_ok (game self) (winning_strategy self) (winning_moves self) →
  (∀ i, i ∈ previous_positions → initial_position (game self) ≤ i < b) →
  b ≤ final_position (game self) →
  (Z.to_nat (b - initial_position (game self)) < fuel)%nat →
  ∃ self',
    find_winning_strategy_loop fuel self previous_positions = Some self'
    ∧ game self' = game self
    ∧ play_mode self' = play_mode self
    ∧ tables_ok (game self) (winning_strategy self') (winning_moves self')
    ∧ winning_strategy self ⊆ winning_strategy self'
    ∧ moves_extend (winning_moves self) (winning_moves self').
Proof.
  revert self previous_positions b.
  induction fuel as [|fuel IH]; intros self prev b Ht Hprev Hb Hfuel; [lia|].
  cbn [find_winning_strategy_loop].
  assert (frame_ok self b (scan self (elements prev))) as Hfr.
  { apply scan_ok; [done| |done].
    intros i Hi%elem_of_elements. by apply Hprev. }
  destruct Hfr as [Hg Hm Hs Ht' He Hbelow].
  destruct (updated_strategy (scan self (elements prev))) eqn:Hupd.
  - assert (initial_position (game self) < b) as Hlt.
    { destruct (elements prev) as [|i l] eqn:Hel; [done|].
      assert (i ∈ prev) as Hi%Hprev; [|lia].
      apply elem_of_elements. rewrite Hel. apply list_elem_of_here. }
    edestruct (IH (set_winning_strategy
                     (winning_strategy (bot (scan self (elements prev)))
                      ∪ new_positions (scan self (elements prev)))
                     (bot (scan self (elements prev))))
                  (new_positions (scan self (elements prev))) (b - 1))
      as (self' & Hrun & Hg' & Hm' & Ht'' & Hsub & He').
    + cbn. rewrite Hg, Hs. exact Ht'.
    + cbn. rewrite Hg. intros i Hi. split; [|by apply Hbelow].
      apply (strategy_in_range _ _ _ Ht'). by apply elem_of_union_r.
    + cbn. rewrite Hg. lia.
    + cbn. rewrite Hg. lia.
    + cbn in Hg', Hm', Ht'', Hsub, He'. rewrite Hg in Hg', Ht''.
      rewrite Hm in Hm'. rewrite Hs in Hsub.
      exists self'. split_and!; try done.
      * intros x Hx. by apply Hsub, elem_of_union_l.
      * by eapply moves_extend_trans.
  - eexists. split; [done|]. cbn. rewrite Hs. split_and!; try done.
    apply union_subseteq_l.
Qed.

Lemma mode_implementations_ok game_mode :
  game_mode ∈ game_modes → ∃ play, mode_implementations game_mode = Ok play.
Proof.
  unfold game_modes. rewrite !elem_of_cons, elem_of_nil.
  intros [->|[->|[->|[]]]]; eexists; reflexivity.
Qed.

(** The tables of lines 182-185, before [find_winning_strategy] runs. *)
Lemma seed_tables_ok g position :
  initial_position g = position →
  tables_ok g
    (list_to_set (range ((final_position g - max_move g) `max` position)
                        (final_position g)))
    (gset_to_gmap [final_position g]
       (list_to_set (range ((final_position g - max_move g) `max` position)
                           (final_position g)))).
Proof.
  intros Hpos. constructor.
  - intros p Hp%elem_of_list_to_set%elem_of_range. lia.
  - intros p Hp. rewrite lookup_gset_to_gmap, option_guard_True by done. done.
  - intros x l t [Hx <-]%lookup_gset_to_gmap_Some Ht%list_elem_of_singleton.
    apply elem_of_list_to_set, elem_of_range in Hx. lia.
  - by intros x l [_ <-]%lookup_gset_to_gmap_Some.
  - by intros x [l [Hx _]%lookup_gset_to_gmap_Some].
Qed.

(** [SpoilerBot.__init__] returns an object whenever [Game.__init__] and
    the mode lookup do; its tables are in order and keep the seed. *)
Lemma SpoilerBot_init_constructs day month year position game_mode :
  1 ≤ position →
  game_mode ∈ game_modes →
  ∃ self,
    (∀ fuel, (enough_rounds day month year position ≤ fuel)%nat →
       SpoilerBot_init fuel day month year position game_mode
       = Some (Ok self))
    ∧ (∀ fuel r,
         SpoilerBot_init fuel day month year position game_mode = Some r →
         r = Ok self)
    ∧ initial_position (game self) = position
    ∧ final_position (game self) = day + month + year
    ∧ max_move (game self) = day + month
    ∧ tables_ok (game self) (winning_strategy self) (winning_moves self)
    ∧ (∀ p, (day + month + year - (day + month)) `max` position ≤ p
            < day + month + year →
         p ∈ winning_strategy self
         ∧ ∃ l, winning_moves self !! p = Some l ∧ day + month + year ∈ l).
Proof.
  intros Hpos Hmode.
  destruct (mode_implementations_ok _ Hmode) as [play Hplay].
  unfold SpoilerBot_init. rewrite Game_init_ok, Hplay by done.
  cbn [log_operation modify snd final_position max_move initial_position
       next_player winner current_position log_file].
  set (g := mkGame _ _ _ _ _ _ _).
  set (ws := list_to_set _ : gset Z).
  pose proof (seed_tables_ok g position eq_refl) as Hseed.
  change (tables_ok g ws (gset_to_gmap [day + month + year] ws)) in Hseed.
  set (self := mkSpoilerBot g play ws _).
  destruct (find_winning_strategy_loop_terminates
              (enough_rounds day month year position) self ws
              (day + month + year))
    as (self' & Hrun & Hg & _ & Ht & Hsub & He).
  { exact Hseed. }
  { intros i Hi. by apply (strategy_in_range _ _ _ Hseed). }
  { done. }
  { cbn. unfold enough_rounds. lia. }
  cbn in Ht, Hsub, He.
  exists self'. split_and!.
  - intros fuel Hfuel. unfold find_winning_strategy.
    change (winning_strategy self) with ws.
    by rewrite (find_winning_strategy_loop_mono _ fuel _ _ _ Hrun Hfuel).
  - intros fuel r. unfold find_winning_strategy.
    change (winning_strategy self) with ws.
    destruct (find_winning_strategy_loop fuel _ _) as [self''|] eqn:Hrun';
      [|done].
    intros [= <-]. f_equal.
    pose proof (find_winning_strategy_loop_mono _
                  (fuel `max` enough_rounds day month year position)%nat
                  _ _ _ Hrun' ltac:(lia)) as H1.
    pose proof (find_winning_strategy_loop_mono _
                  (fuel `max` enough_rounds day month year position)%nat
                  _ _ _ Hrun ltac:(lia)) as H2.
    cbn in H1. congruence.
  - by rewrite Hg.
  - by rewrite Hg.
  - by rewrite Hg.
  - by rewrite Hg.
  - intros p Hp.
    assert (p ∈ ws) as Hin.
    { apply elem_of_list_to_set, elem_of_range. cbn. lia. }
    split; [by apply Hsub|].
    destruct (He p [day + month + year]) as [l' Hl'].
    { by apply lookup_gset_to_gmap_Some. }
    eexists. split; [exact Hl'|]. apply elem_of_app. left.
    apply list_elem_of_here.
Qed.

Lemma SpoilerBot_init_mono fuel fuel' day month year position game_mode r :
  SpoilerBot_init fuel day month year position game_mode = Some r →
  (fuel ≤ fuel')%nat →
  SpoilerBot_init fuel' day month year position game_mode = Some r.
Proof.
  unfold SpoilerBot_init, find_winning_strategy. intros Hrun Hle.
  destruct (Game_init _ _ _ _); [|done].
  destruct (mode_implementations _); [|done].
  destruct (find_winning_strategy_loop fuel _ _) as [self|] eqn:Hloop; [|done].
  by rewrite (find_winning_strategy_loop_mono _ _ _ _ _ Hloop Hle).
Qed.

Lemma smart_is_a_game_mode : "smart" ∈ game_modes.
Proof. apply list_elem_of_further, list_elem_of_here. Qed.

(** C1 (as amended).  For [max_move = 2], [final_position = 10] and
    [initial_position = 1] the constructor leaves
    [winning_strategy = {2,3,5,6,8,9}]; the positions of [1, 10) outside it
    are 1, 4 and 7. *)
Theorem winning_strategy_2_10_1 game_mode :
  game_mode ∈ game_modes →
  ∃ self,
    (∀ fuel, (4 ≤ fuel)%nat →
       SpoilerBot_init fuel 1 1 8 1 game_mode = Some (Ok self))
    ∧ max_move (game self) = 2
    ∧ final_position (game self) = 10
    ∧ initial_position (game self) = 1
    ∧ winning_strategy self = list_to_set [2; 3; 5; 6; 8; 9]
    ∧ ∀ p, 1 ≤ p < 10 → (p ∉ winning_strategy self ↔ p ∈ [1; 4; 7]).
Proof.
  unfold game_modes. rewrite !elem_of_cons, elem_of_nil.
  intros [->|[->|[->|[]]]].
  all: eexists; split;
    [intros fuel Hfuel; apply (SpoilerBot_init_mono 4); [|exact Hfuel];
     vm_compute; reflexivity|].
  all: split; [reflexivity|]; split; [reflexivity|]; split; [reflexivity|].
  all: split; [vm_compute; reflexivity|].
  all: intros p Hp;
    match goal with
    | |- ?q ∉ ?s ↔ _ =>
        replace s with (list_to_set (C:=gset Z) [2; 3; 5; 6; 8; 9])
          by (vm_compute; reflexivity)
    end;
    rewrite elem_of_list_to_set, !elem_of_cons, !elem_of_nil; lia.
Qed.

Lemma winning_strategy_2_10_1_witness :
  ∃ self,
    SpoilerBot_init 4 1 1 8 1 "smart" = Some (Ok self)
    ∧ winning_strategy self = list_to_set [2; 3; 5; 6; 8; 9].
Proof.
  destruct (winning_strategy_2_10_1 "smart" smart_is_a_game_mode)
    as (self & Hrun & _ & _ & _ & Hws & _).
  exists self. split; [apply Hrun; lia|exact Hws].
Defined.

(** C1 (as stated) fails: 7 is not in [winning_strategy], while 2 and 5
    are. *)
Lemma winning_strategy_2_10_1_not_as_stated :
  ∃ self,
    SpoilerBot_init 4 1 1 8 1 "smart" = Some (Ok self)
    ∧ winning_strategy self ≠ list_to_set [8; 9; 7; 6; 4; 3; 1]
    ∧ (7 ∉ winning_strategy self)
    ∧ 2 ∈ winning_strategy self
    ∧ 5 ∈ winning_strategy self.
Proof.
  eexists. split; [vm_compute; reflexivity|].
  assert (7 ∉ list_to_set (C:=gset Z) [2; 3; 5; 6; 8; 9]) as H7.
  { rewrite elem_of_list_to_set, !elem_of_cons, elem_of_nil. lia. }
  replace (winning_strategy _) with (list_to_set (C:=gset Z) [2; 3; 5; 6; 8; 9])
    by (vm_compute; reflexivity).
  split_and!.
  - intros Heq. apply H7. rewrite Heq.
    rewrite elem_of_list_to_set, !elem_of_cons. tauto.
  - exact H7.
  - rewrite elem_of_list_to_set, !elem_of_cons. tauto.
  - rewrite elem_of_list_to_set, !elem_of_cons. tauto.
Qed.

(** C2.  For every date and initial position with [max_move >= 1] and
    [1 <= initial_position < final_position], [SpoilerBot.__init__] (and so
    the loop of [find_winning_strategy]) returns, after at most
    [final_position - initial_position + 1] rounds, and every position of
    [winning_strategy] lies in [initial_position, final_position). *)
Theorem find_winning_strategy_terminates day month year position game_mode :
  1 ≤ day + month →
  1 ≤ position < day + month + year →
  game_mode ∈ game_modes →
  ∃ self,
    (∀ fuel, (enough_rounds day month year position ≤ fuel)%nat →
       SpoilerBot_init fuel day month year position game_mode
       = Some (Ok self))
    ∧ (∀ fuel r,
         SpoilerBot_init fuel day month year position game_mode = Some r →
         r = Ok self)
    ∧ ∀ p, p ∈ winning_strategy self → position ≤ p < day + month + year.
Proof.
  intros _ [Hpos _] Hmode.
  destruct (SpoilerBot_init_constructs day month year position game_mode)
    as (self & Hrun & Huniq & Hi & Hf & _ & Ht & _); [done..|].
  exists self. split_and!; [done..|].
  intros p Hp%(strategy_in_range _ _ _ Ht). lia.
Qed.

Lemma find_winning_strategy_terminates_witness :
  ∃ self,
    SpoilerBot_init (enough_rounds 5 3 2000 1990) 5 3 2000 1990 "smart"
    = Some (Ok self)
    ∧ ∀ p, p ∈ winning_strategy self → 1990 ≤ p < 5 + 3 + 2000.
Proof.
  destruct (find_winning_strategy_terminates 5 3 2000 1990 "smart")
    as (self & Hrun & _ & Hin);
    [lia | lia | exact smart_is_a_game_mode |].
  exists self. split; [apply Hrun; lia|exact Hin].
Defined.

(** C3.  After construction every position of the window
    [max(final_position - max_move, initial_position), final_position) is
    in [winning_strategy], and its entry in [winning_moves] holds
    [final_position]. *)
Theorem seed_window_kept day month year position game_mode :
  1 ≤ position →
  game_mode ∈ game_modes →
  ∃ self,
    (∀ fuel, (enough_rounds day month year position ≤ fuel)%nat →
       SpoilerBot_init fuel day month year position game_mode
       = Some (Ok self))
    ∧ ∀ p, (final_position (game self) - max_move (game self))
             `max` position ≤ p < final_position (game self) →
        p ∈ winning_strategy self
        ∧ ∃ targets, winning_moves self !! p = Some targets
                     ∧ final_position (game self) ∈ targets.
Proof.
  intros Hpos Hmode.
  destruct (SpoilerBot_init_constructs day month year position game_mode)
    as (self & Hrun & _ & _ & Hf & Hm & _ & Hwin); [done..|].
  exists self. split; [done|]. rewrite Hf, Hm. exact Hwin.
Qed.

Lemma seed_window_kept_witness :
  ∃ self,
    SpoilerBot_init (enough_rounds 5 3 2000 1) 5 3 2000 1 "smart"
    = Some (Ok self)
    ∧ 2003 ∈ winning_strategy self
    ∧ ∃ targets, winning_moves self !! 2003 = Some targets
                 ∧ final_position (game self) ∈ targets.
Proof.
  destruct (seed_window_kept 5 3 2000 1 "smart")
    as (self & Hrun & Hwin); [lia | exact smart_is_a_game_mode |].
  destruct (SpoilerBot_init_constructs 5 3 2000 1 "smart")
    as (self' & Hrun' & _ & _ & Hf & Hm & _); [lia | exact smart_is_a_game_mode |].
  assert (self' = self) as ->.
  { specialize (Hrun _ (le_n _)). specialize (Hrun' _ (le_n _)). congruence. }
  exists self. split; [apply Hrun; lia|].
  apply Hwin. rewrite Hf, Hm. lia.
Defined.

(** C5.  On the constructed bot, whatever position the game has reached,
    [pick_smart_move] does not raise; a move [d] it returns satisfies
    [1 <= d <= max_move] and does not pass [final_position]; and at a
    position outside [winning_strategy] it returns [None]. *)
Theorem pick_smart_move_legal day month year position game_mode :
  1 ≤ position →
  game_mode ∈ game_modes →
  ∃ self,
    (∀ fuel, (enough_rounds day month year position ≤ fuel)%nat →
       SpoilerBot_init fuel day month year position game_mode
       = Some (Ok self))
    ∧ ∀ g,
        (∃ r, pick_smart_move (with_game g self) = Ok r)
        ∧ (∀ d, pick_smart_move (with_game g self) = Ok (Some d) →
             1 ≤ d ≤ day + month
             ∧ current_position g + d ≤ day + month + year)
        ∧ (current_position g ∉ winning_strategy self →
           pick_smart_move (with_game g self) = Ok None).
Proof.
  intros Hpos Hmode.
  destruct (SpoilerBot_init_constructs day month year position game_mode)
    as (self & Hrun & _ & _ & Hf & Hm & Ht & _); [done..|].
  exists self. split; [done|]. intros g.
  unfold pick_smart_move.
  cbn [with_game game winning_strategy winning_moves].
  destruct (bool_decide (current_position g ∈ winning_strategy self)) eqn:Hin.
  2: { apply bool_decide_eq_false in Hin. split_and!; [by eauto|done|done]. }
  apply bool_decide_eq_true in Hin.
  destruct (strategy_has_moves _ _ _ Ht _ Hin) as [targets Htargets].
  rewrite Htargets.
  destruct (py_max_nonempty targets) as [m Hmax].
  { by eapply (moves_nonempty _ _ _ Ht). }
  rewrite Hmax. apply py_max_elem in Hmax.
  destruct (moves_legal _ _ _ Ht _ _ _ Htargets Hmax) as [Hstep Hend].
  rewrite Hf in Hend. rewrite Hm in Hstep.
  split_and!; [by eauto| |done].
  unfold or_None. destruct (decide _); [done|]. intros d [= <-]. lia.
Qed.

Lemma pick_smart_move_legal_witness :
  ∃ self,
    SpoilerBot_init 10 1 1 8 1 "smart" = Some (Ok self)
    ∧ pick_smart_move
        (with_game (mkGame SPOILER_ID None 5 1 10 2 []) self) = Ok (Some 2)
    ∧ 1 ≤ 2 ≤ 1 + 1 ∧ 5 + 2 ≤ 1 + 1 + 8.
Proof.
  destruct (pick_smart_move_legal 1 1 8 1 "smart")
    as (self & Hrun & Hpick); [lia | exact smart_is_a_game_mode |].
  specialize (Hrun 10%nat ltac:(reflexivity)).
  exists self. split; [exact Hrun|].
  assert (pick_smart_move
            (with_game (mkGame SPOILER_ID None 5 1 10 2 []) self)
          = Ok (Some 2)) as Hmove.
  { vm_compute in Hrun. injection Hrun as <-. vm_compute. reflexivity. }
  split; [exact Hmove|].
  destruct (Hpick (mkGame SPOILER_ID None 5 1 10 2 [])) as (_ & Hd & _).
  exact (Hd 2 Hmove).
Defined.

(** C4: the keys of [winning_moves] are not [winning_strategy].  For the
    date 1-1-1851 and the initial position 1850 the constructor leaves
    [winning_strategy = {1851, 1852}], while [winning_moves] also has the
    keys 1848 and 1849, both below the initial position: line 212 ranges
    over [opponent_position - max_move] without the [max] with
    [initial_position] that line 210 applies. *)
Theorem winning_moves_keys_below_start :
  ∃ self,
    SpoilerBot_init (enough_rounds 1 1 1851 1850) 1 1 1851 1850 "smart"
    = Some (Ok self)
    ∧ initial_position (game self) = 1850
    ∧ winning_strategy self = list_to_set [1851; 1852]
    ∧ dom (winning_moves self) = list_to_set [1848; 1849; 1851; 1852]
    ∧ winning_moves self !! 1848 = Some [1850; 1850]
    ∧ dom (winning_moves self) ≠ winning_strategy self.
Proof.
  eexists. split; [vm_compute; reflexivity|].
  split; [reflexivity|].
  split; [vm_compute; reflexivity|].
  split; [vm_compute; reflexivity|].
  split; [vm_compute; reflexivity|].
  intros Heq.
  match type of Heq with
  | dom ?wm = ?ws =>
      assert (1848 ∈ dom wm) as Hin
        by (apply elem_of_dom; vm_compute; eauto);
      assert (1848 ∉ ws) as Hout
        by (replace ws with (list_to_set (C:=gset Z) [1851; 1852])
              by (vm_compute; reflexivity);
            rewrite elem_of_list_to_set, !elem_of_cons, elem_of_nil; lia)
  end.
  apply Hout. by rewrite <- Heq.
Qed.

(** X15.  What does hold of the keys: every position of
    [winning_strategy] is a key, every key from [initial_position] on is in
    [winning_strategy], and all keys are below [final_position]. *)
Lemma winning_moves_keys day month year position game_mode :
  1 ≤ position →
  game_mode ∈ game_modes →
  ∃ self,
    (∀ fuel, (enough_rounds day month year position ≤ fuel)%nat →
       SpoilerBot_init fuel day month year position game_mode
       = Some (Ok self))
    ∧ winning_strategy self ⊆ dom (winning_moves self)
    ∧ (∀ x, x ∈ dom (winning_moves self) → position ≤ x →
         x ∈ winning_strategy self)
    ∧ (∀ x, x ∈ dom (winning_moves self) → x < day + month + year).
Proof.
  intros Hpos Hmode.
  destruct (SpoilerBot_init_constructs day month year position game_mode)
    as (self & Hrun & _ & Hi & Hf & _ & Ht & _); [done..|].
  exists self. split_and!; [done|..].
  - intros p Hp. by apply elem_of_dom, (strategy_has_moves _ _ _ Ht).
  - intros x Hx%elem_of_dom Hle.
    apply (keys_from_start _ _ _ Ht); [done|]. by rewrite Hi.
  - intros x [l Hl]%elem_of_dom.
    pose proof (moves_nonempty _ _ _ Ht _ _ Hl) as Hne.
    destruct l as [|t l]; [done|].
    destruct (moves_legal _ _ _ Ht _ _ t Hl) as [? ?];
      [apply list_elem_of_here|lia].
Qed.

End strategy_properties.

(** * The closed form of [winning_strategy] *)

Section closed_form.

Implicit Types (self : SpoilerBot) (fr : frame) (g : Game).

Lemma on_grid_final g : on_grid g (final_position g).
Proof. unfold on_grid. by rewrite Z.sub_diag. Qed.

Lemma on_grid_down g f :
  on_grid g f → on_grid g (f - (max_move g + 1)).
Proof.
  unfold on_grid. intros Hf.
  replace (final_position g - (f - (max_move g + 1)))
    with (final_position g - f + 1 * (max_move g + 1)) by lia.
  by rewrite Z_mod_plus_full.
Qed.

(** Strictly between two grid positions there is none. *)
Lemma off_grid_between g f p :
  on_grid g f → 1 ≤ f - p ≤ max_move g → ¬ on_grid g p.
Proof.
  unfold on_grid. intros Hf Hp Hgrid.
  apply Z.mod_divide in Hf as [c Hc]; [|lia].
  replace (final_position g - p)
    with (f - p + c * (max_move g + 1)) in Hgrid by lia.
  rewrite Z_mod_plus_full, Z.mod_small in Hgrid; lia.
Qed.

Lemma on_grid_unique g t1 t2 :
  0 ≤ max_move g → on_grid g t1 → on_grid g t2 →
  - max_move g ≤ t1 - t2 ≤ max_move g → t1 = t2.
Proof.
  intros Hm H1 H2 Hclose.
  destruct (Z.lt_trichotomy t1 t2) as [Hlt|[Heq|Hgt]]; [|done|].
  - destruct (off_grid_between g t2 t1); (done || lia).
  - destruct (off_grid_between g t1 t2); (done || lia).
Qed.

Lemma record_moves_entries (Q : Z → Prop) opp xs self :
  Q opp →
  entries_all Q (winning_moves self) →
  entries_all Q (winning_moves (foldl (record_move opp) self xs)).
Proof.
  intros Hopp. revert self.
  induction xs as [|a xs IH]; intros self Hall; [done|].
  cbn. apply IH. intros x l t. cbn.
  destruct (decide (a = x)) as [->|Hne].
  - rewrite lookup_insert_eq. intros [= <-] [Ht|Ht]%elem_of_app.
    + destruct (winning_moves self !! x) as [l0|] eqn:Hl0.
      * rewrite or_empty_Some in Ht. by eapply Hall.
      * by apply elem_of_nil in Ht.
    + by apply list_elem_of_singleton in Ht as ->.
  - rewrite lookup_insert_ne by done. apply Hall.
Qed.

Lemma visit_opponent_entries (Q : Z → Prop) g ws fr opp :
  game (bot fr) = g → winning_strategy (bot fr) = ws →
  (finds g ws opp → Q opp) →
  entries_all Q (winning_moves (bot fr)) →
  entries_all Q (winning_moves (bot (visit_opponent fr opp))).
Proof.
  intros <- <- Hopp Hall. unfold visit_opponent.
  destruct (bool_decide (opp < _) || bool_decide (opp ∈ _)) eqn:Hskip; [done|].
  destruct (all_winning (bot fr) opp) eqn:Hwin; [|done].
  cbn. apply record_moves_entries; [|done]. apply Hopp.
  apply orb_false_iff in Hskip as [Hlow Hin].
  apply bool_decide_eq_false in Hlow, Hin.
  split_and!; [lia|done|by apply all_winning_true].
Qed.

Lemma visit_position_entries (Q : Z → Prop) g ws fr i :
  game (bot fr) = g → winning_strategy (bot fr) = ws →
  (∀ opp, initial_position g `max` (i - max_move g) ≤ opp < i →
          finds g ws opp → Q opp) →
  entries_all Q (winning_moves (bot fr)) →
  entries_all Q (winning_moves (bot (visit_position fr i))).
Proof.
  intros Hg Hws Hopp. unfold visit_position. rewrite Hg.
  assert (∀ opp, opp ∈ range (initial_position g `max` (i - max_move g)) i →
                 finds g ws opp → Q opp) as Hopps.
  { intros opp Hin%elem_of_range. by apply Hopp. }
  clear Hopp. revert fr Hg Hws.
  induction (range _ i) as [|opp opps IH]; intros fr Hg Hws Hall; [done|].
  cbn. destruct (visit_opponent_collects g ws fr opp Hg Hws) as (Hg' & Hws' & _).
  apply IH.
  - intros o Ho. apply Hopps. by apply list_elem_of_further.
  - congruence.
  - congruence.
  - eapply visit_opponent_entries; [done..| |done].
    apply Hopps, list_elem_of_here.
Qed.

Lemma scan_entries (Q : Z → Prop) self previous_positions :
  (∀ i opp, i ∈ previous_positions →
     initial_position (game self) `max` (i - max_move (game self)) ≤ opp < i →
     finds (game self) (winning_strategy self) opp → Q opp) →
  entries_all Q (winning_moves self) →
  entries_all Q (winning_moves (bot (scan self previous_positions))).
Proof.
  unfold scan. intros Hopp Hall.
  assert (game (bot (mkFrame self ∅ false)) = game self) as Hg by done.
  assert (winning_strategy (bot (mkFrame self ∅ false))
          = winning_strategy self) as Hws by done.
  change (entries_all Q (winning_moves (bot (mkFrame self ∅ false)))) in Hall.
  revert Hg Hws Hall. generalize (mkFrame self ∅ false).
  induction previous_positions as [|i l IH]; intros fr Hg Hws Hall; [done|].
  cbn.
  assert (game (bot (visit_position fr i)) = game self
          ∧ winning_strategy (bot (visit_position fr i))
            = winning_strategy self) as [Hg' Hws'].
  { destruct (foldl_collects visit_opponent (game self)
                (winning_strategy self) _ _
                (visit_opponent_collects (game self) (winning_strategy self))
                (range (initial_position (game (bot fr))
                        `max` (i - max_move (game (bot fr)))) i)
                fr Hg Hws) as (Hg' & Hws' & _).
    unfold visit_position. split; congruence. }
  apply IH; [|done|done|].
  - intros j opp Hj. apply Hopp. by apply list_elem_of_further.
  - eapply visit_position_entries; [done..| |done].
    intros opp. apply Hopp, list_elem_of_here.
Qed.

(** In a round, the scan can act on one opponent position only: the grid
    position below the last one. *)
Lemma round_finds_unique self previous_positions f i opp :
  1 ≤ max_move (game self) →
  round_ok self previous_positions f →
  i ∈ previous_positions →
  initial_position (game self) `max` (i - max_move (game self)) ≤ opp < i →
  finds (game self) (winning_strategy self) opp →
  opp = f - (max_move (game self) + 1).
Proof.
  intros Hm [Hf Hle Hws Hprev _] Hi%Hprev Hreach (Hlow & Hout & Hall).
  assert (opp + 1 ∈ winning_strategy self) as [Hnext _]%Hws
    by (apply Hall; lia).
  rewrite Hws in Hout.
  destruct (decide (initial_position (game self)
                    `max` (f - max_move (game self)) ≤ opp)) as [Hge|Hlt];
    [|lia].
  destruct Hout. split; [lia|].
  apply (off_grid_between _ f); [done|lia].
Qed.

Lemma round_finds_exists self previous_positions f :
  1 ≤ max_move (game self) →
  round_ok self previous_positions f →
  initial_position (game self) < f - max_move (game self) →
  f - max_move (game self) ∈ previous_positions
  ∧ finds (game self) (winning_strategy self) (f - (max_move (game self) + 1)).
Proof.
  intros Hm [Hf Hle Hws Hprev _] Hroom. split; [apply Hprev; lia|].
  split_and!; [lia| |].
  - rewrite Hws. lia.
  - intros p Hp. apply Hws. split; [lia|].
    apply (off_grid_between _ f); [done|lia].
Qed.

(** One round takes [round_ok] from one grid position to the next, or
    leaves the flag down with the strategy complete. *)
Lemma round_step self previous_positions f :
  1 ≤ max_move (game self) →
  round_ok self previous_positions f →
  let fr := scan self (elements previous_positions) in
  let self' :=
    set_winning_strategy (winning_strategy (bot fr) ∪ new_positions fr)
                         (bot fr) in
  game self' = game self
  ∧ entries_all (on_grid (game self)) (winning_moves self')
  ∧ (updated_strategy fr = true →
     round_ok self' (new_positions fr) (f - (max_move (game self) + 1)))
  ∧ (updated_strategy fr = false →
     ∀ p, p ∈ winning_strategy self'
          ↔ initial_position (game self) ≤ p < final_position (game self)
            ∧ ¬ on_grid (game self) p).
Proof.
  intros Hm Hok fr self'.
  destruct (scan_collects self (elements previous_positions))
    as (Hg & Hws & Hnew & Hupd).
  fold fr in Hg, Hws, Hnew, Hupd. cbn in Hg, Hws, Hnew, Hupd.
  assert (entries_all (on_grid (game self)) (winning_moves self')) as Hent.
  { apply scan_entries; [|apply Hok].
    intros i opp Hi%elem_of_elements Hreach Hfinds.
    rewrite (round_finds_unique _ _ _ _ _ Hm Hok Hi Hreach Hfinds).
    apply on_grid_down, Hok. }
  assert (updated_strategy fr = true
          ↔ initial_position (game self) < f - max_move (game self)) as Hupd'.
  { rewrite Hupd. split.
    - intros [?|(i & Hi%elem_of_elements & opp & Hreach & Hfinds)]; [done|].
      pose proof (round_finds_unique _ _ _ _ _ Hm Hok Hi Hreach Hfinds).
      destruct Hfinds as (? & _). lia.
    - intros Hroom. right.
      destruct (round_finds_exists _ _ _ Hm Hok Hroom) as [Hi Hfinds].
      exists (f - max_move (game self)).
      split; [by apply elem_of_elements|].
      exists (f - (max_move (game self) + 1)). split; [lia|done]. }
  assert (∀ q, q ∈ new_positions fr
               ↔ initial_position (game self) < f - max_move (game self)
                 ∧ initial_position (game self)
                     `max` (f - (max_move (game self) + 1)
                            - max_move (game self)) ≤ q
                   < f - (max_move (game self) + 1)) as Hnew'.
  { intros q. rewrite Hnew. split.
    - intros [[]%not_elem_of_empty
             |(i & Hi%elem_of_elements & opp & Hreach & Hfinds & Hq)].
      pose proof (round_finds_unique _ _ _ _ _ Hm Hok Hi Hreach Hfinds) as ->.
      destruct Hfinds as (? & _). lia.
    - intros [Hroom Hq]. right.
      destruct (round_finds_exists _ _ _ Hm Hok Hroom) as [Hi Hfinds].
      exists (f - max_move (game self)).
      split; [by apply elem_of_elements|].
      exists (f - (max_move (game self) + 1)). split; [lia|done]. }
  destruct Hok as [Hf Hle Hstrat Hprev Hentries].
  split_and!; [done|done| |].
  - intros Hroom%Hupd'. constructor; cbn; rewrite ?Hg.
    + by apply on_grid_down.
    + lia.
    + intros p. rewrite Hws, elem_of_union, Hstrat, Hnew'. split.
      * intros [[Hp Hoff]|[_ Hp]]; [split; [lia|done]|].
        split; [lia|].
        apply (off_grid_between _ (f - (max_move (game self) + 1)));
          [by apply on_grid_down|lia].
      * intros [Hp Hoff].
        destruct (decide (f - max_move (game self) ≤ p)) as [Hge|Hlt].
        { left. split; [lia|done]. }
        right. split; [done|].
        destruct (decide (p = f - (max_move (game self) + 1))) as [->|Hne];
          [|lia].
        destruct Hoff. by apply on_grid_down.
    + intros p. rewrite Hnew'. split; [intros [_ ?]; lia|]. intros ?.
      split; [lia|done].
    + exact Hent.
  - intros Hstop p.
    assert (¬ initial_position (game self) < f - max_move (game self))
      as Hnoroom.
    { intros Hroom%Hupd'. congruence. }
    cbn. rewrite Hws, elem_of_union, Hstrat, Hnew'. split.
    + intros [[Hp Hoff]|[? _]]; [|done]. split; [lia|done].
    + intros [Hp Hoff]. left. split; [lia|done].
Qed.

(** The loop ends with the closed form. *)
Lemma find_winning_strategy_loop_closed_form
    fuel self previous_positions f self' :
  1 ≤ max_move (game self) →
  round_ok self previous_positions f →
  find_winning_strategy_loop fuel self previous_positions = Some self' →
  game self' = game self
  ∧ entries_all (on_grid (game self)) (winning_moves self')
  ∧ ∀ p, p ∈ winning_strategy self'
         ↔ initial_position (game self) ≤ p < final_position (game self)
           ∧ ¬ on_grid (game self) p.
Proof.
  revert self previous_positions f.
  induction fuel as [|fuel IH]; intros self prev f Hm Hok Hrun; [done|].
  cbn [find_winning_strategy_loop] in Hrun.
  destruct (round_step self prev f Hm Hok) as (Hg & Hent & Hgo & Hstop).
  destruct (updated_strategy (scan self (elements prev))) eqn:Hupd.
  - specialize (Hgo eq_refl).
    destruct (IH _ _ _ ltac:(by rewrite Hg) Hgo Hrun) as (Hg' & Hent' & Hws').
    rewrite Hg in Hg', Hent', Hws'. done.
  - injection Hrun as <-. split_and!; [done|done|by apply Hstop].
Qed.

Lemma seed_round_ok g play position :
  1 ≤ max_move g →
  initial_position g = position →
  round_ok
    (mkSpoilerBot g play
       (list_to_set (range ((final_position g - max_move g) `max` position)
                           (final_position g)))
       (gset_to_gmap [final_position g]
          (list_to_set (range ((final_position g - max_move g) `max` position)
                              (final_position g)))))
    (list_to_set (range ((final_position g - max_move g) `max` position)
                        (final_position g)))
    (final_position g).
Proof.
  intros Hm Hpos. constructor; cbn.
  - apply on_grid_final.
  - done.
  - intros p. rewrite elem_of_list_to_set, elem_of_range. split.
    + intros Hp. split; [lia|].
      apply (off_grid_between _ (final_position g)); [apply on_grid_final|lia].
    + intros [Hp _]. lia.
  - intros p. rewrite elem_of_list_to_set, elem_of_range. lia.
  - intros x l t [_ <-]%lookup_gset_to_gmap_Some ->%list_elem_of_singleton.
    apply on_grid_final.
Qed.

(** Everything the later sections use about the object that
    [SpoilerBot.__init__] returns. *)
Lemma SpoilerBot_init_strategy day month year position game_mode :
  1 ≤ day + month →
  1 ≤ position →
  game_mode ∈ game_modes →
  ∃ self,
    (∀ fuel, (enough_rounds day month year position ≤ fuel)%nat →
       SpoilerBot_init fuel day month year position game_mode
       = Some (Ok self))
    ∧ (next_player (game self) = DUPLICATOR_ID
       ∧ winner (game self) = None
       ∧ current_position (game self) = position
       ∧ initial_position (game self) = position
       ∧ final_position (game self) = day + month + year
       ∧ max_move (game self) = day + month)
    ∧ mode_implementations game_mode = Ok (play_mode self)
    ∧ tables_ok (game self) (winning_strategy self) (winning_moves self)
    ∧ entries_all (on_grid (game self)) (winning_moves self)
    ∧ ∀ p, p ∈ winning_strategy self
           ↔ position ≤ p < day + month + year ∧ ¬ on_grid (game self) p.
Proof.
  intros Hm Hpos Hmode.
  destruct (SpoilerBot_init_constructs day month year position game_mode)
    as (self & Hrun & _ & Hi & Hf & Hmm & Ht & _); [done..|].
  exists self. split; [done|].
  specialize (Hrun _ (le_n _)).
  destruct (mode_implementations_ok _ Hmode) as [play Hplay].
  unfold SpoilerBot_init in Hrun. rewrite Game_init_ok, Hplay in Hrun by done.
  cbn [log_operation modify snd final_position max_move initial_position
       next_player winner current_position log_file] in Hrun.
  unfold find_winning_strategy in Hrun. cbn [winning_strategy] in Hrun.
  destruct (find_winning_strategy_loop _ _ _) as [self1|] eqn:Hloop; [|done].
  injection Hrun as ->.
  match type of Hloop with
  | find_winning_strategy_loop _ ?s _ = _ => set (self0 := s) in *
  end.
  destruct (find_winning_strategy_loop_terminates
              (enough_rounds day month year position) self0
              (winning_strategy self0) (day + month + year)
              (seed_tables_ok (game self0) position eq_refl))
    as (self2 & Hloop2 & Hg2 & Hp2 & _).
  { intros i Hi'%elem_of_list_to_set%elem_of_range. cbn in *. lia. }
  { done. }
  { cbn. unfold enough_rounds. lia. }
  assert (Some self2 = Some self) as [= ->]
    by (rewrite <- Hloop2; exact Hloop).
  destruct (find_winning_strategy_loop_closed_form
              (enough_rounds day month year position) self0
              (winning_strategy self0) (day + month + year) self)
    as (Hg & Hent & Hws).
  { exact Hm. }
  { exact (seed_round_ok (game self0) play position Hm eq_refl). }
  { exact Hloop. }
  subst self0. cbn [game play_mode] in Hg, Hent, Hws, Hp2.
  rewrite <- Hg in Hent, Hws. rewrite Hi, Hf in Hws.
  split_and!; try done; try (by rewrite Hg).
  by rewrite Hp2.
Qed.

End closed_form.

(** * The strategy wins *)

Section strategy_wins.

Implicit Types (self : SpoilerBot) (g : Game).

(** With tables in order and all entries on the grid, the smart move at a
    position of [winning_strategy] is the distance to the next grid
    position. *)
Lemma pick_smart_move_on_grid self g :
  tables_ok (game self) (winning_strategy self) (winning_moves self) →
  entries_all (on_grid (game self)) (winning_moves self) →
  current_position g ∈ winning_strategy self →
  pick_smart_move (with_game g self)
  = Ok (Some ((final_position (game self) - current_position g)
              `mod` (max_move (game self) + 1)))
  ∧ 1 ≤ (final_position (game self) - current_position g)
        `mod` (max_move (game self) + 1) ≤ max_move (game self)
  ∧ on_grid (game self)
      (current_position g
       + (final_position (game self) - current_position g)
         `mod` (max_move (game self) + 1)).
Proof.
  intros Ht Hent Hin. unfold pick_smart_move.
  cbn [with_game game winning_strategy winning_moves].
  rewrite bool_decide_eq_true_2 by done.
  destruct (strategy_has_moves _ _ _ Ht _ Hin) as [targets Htargets].
  rewrite Htargets.
  destruct (py_max_nonempty targets) as [t Hmax].
  { by eapply (moves_nonempty _ _ _ Ht). }
  rewrite Hmax. apply py_max_elem in Hmax.
  destruct (moves_legal _ _ _ Ht _ _ _ Htargets Hmax) as [Hstep Hend].
  pose proof (Hent _ _ _ Htargets Hmax) as Hgrid.
  assert ((final_position (game self) - current_position g)
          `mod` (max_move (game self) + 1) = t - current_position g) as ->.
  { unfold on_grid in Hgrid. apply Z.mod_divide in Hgrid as [c Hc]; [|lia].
    replace (final_position (game self) - current_position g)
      with (t - current_position g + c * (max_move (game self) + 1)) by lia.
    rewrite Z_mod_plus_full. apply Z.mod_small. lia. }
  unfold or_None. rewrite decide_False by lia.
  split_and!; [done|lia|lia|].
  by replace (current_position g + (t - current_position g)) with t by lia.
Qed.

(** X1.  For [max_move >= 1], [winning_strategy] after construction is
    the set of positions [p] of [initial_position, final_position) whose
    distance to the final position is not a multiple of [max_move + 1]. *)
Theorem winning_strategy_closed_form day month year position game_mode :
  1 ≤ day + month →
  1 ≤ position →
  game_mode ∈ game_modes →
  ∃ self,
    (∀ fuel, (enough_rounds day month year position ≤ fuel)%nat →
       SpoilerBot_init fuel day month year position game_mode
       = Some (Ok self))
    ∧ ∀ p, p ∈ winning_strategy self
           ↔ position ≤ p < day + month + year
             ∧ (day + month + year - p) `mod` (day + month + 1) ≠ 0.
Proof.
  intros Hm Hpos Hmode.
  destruct (SpoilerBot_init_strategy day month year position game_mode)
    as (self & Hrun & (_ & _ & _ & _ & Hf & Hmm) & _ & _ & _ & Hws);
    [done..|].
  exists self. split; [done|]. intros p. rewrite Hws.
  unfold on_grid. by rewrite Hf, Hmm.
Qed.

Lemma winning_strategy_closed_form_witness :
  ∃ self,
    (∀ fuel, (enough_rounds 5 3 2000 1 ≤ fuel)%nat →
       SpoilerBot_init fuel 5 3 2000 1 "smart" = Some (Ok self))
    ∧ ∀ p, p ∈ winning_strategy self
           ↔ 1 ≤ p < 5 + 3 + 2000 ∧ (5 + 3 + 2000 - p) `mod` (5 + 3 + 1) ≠ 0.
Proof.
  apply (winning_strategy_closed_form 5 3 2000 1 "smart");
    [lia | lia | exact smart_is_a_game_mode].
Defined.

(** X2.  [pick_smart_move] in closed form: at a position [p] of
    [initial_position, final_position) with
    [(final_position - p) % (max_move + 1)] not 0 it returns that
    remainder, anywhere else it returns [None]. *)
Theorem pick_smart_move_closed_form day month year position game_mode :
  1 ≤ day + month →
  1 ≤ position →
  game_mode ∈ game_modes →
  ∃ self,
    (∀ fuel, (enough_rounds day month year position ≤ fuel)%nat →
       SpoilerBot_init fuel day month year position game_mode
       = Some (Ok self))
    ∧ ∀ g,
        pick_smart_move (with_game g self)
        = if decide (position ≤ current_position g < day + month + year
                     ∧ (day + month + year - current_position g)
                       `mod` (day + month + 1) ≠ 0)
          then Ok (Some ((day + month + year - current_position g)
                         `mod` (day + month + 1)))
          else Ok None.
Proof.
  intros Hm Hpos Hmode.
  destruct (SpoilerBot_init_strategy day month year position game_mode)
    as (self & Hrun & (_ & _ & _ & _ & Hf & Hmm) & _ & Ht & Hent & Hws);
    [done..|].
  exists self. split; [done|]. intros g.
  destruct (decide _) as [Hin|Hout].
  - destruct (pick_smart_move_on_grid self g Ht Hent) as (Hpick & _).
    { apply Hws. unfold on_grid. by rewrite Hf, Hmm. }
    by rewrite Hpick, Hf, Hmm.
  - unfold pick_smart_move. cbn [with_game game winning_strategy].
    rewrite bool_decide_eq_false_2; [done|].
    rewrite Hws. unfold on_grid. by rewrite Hf, Hmm.
Qed.

Lemma pick_smart_move_closed_form_witness :
  ∃ self,
    (∀ fuel, (enough_rounds 5 3 2000 1 ≤ fuel)%nat →
       SpoilerBot_init fuel 5 3 2000 1 "advisor" = Some (Ok self))
    ∧ pick_smart_move
        (with_game (mkGame DUPLICATOR_ID None 1001 1 2008 8 []) self)
      = Ok (Some 8).
Proof.
  destruct (pick_smart_move_closed_form 5 3 2000 1 "advisor")
    as (self & Hrun & Hpick);
    [lia | lia | do 2 apply list_elem_of_further; apply list_elem_of_here |].
  exists self. split; [exact Hrun|].
  rewrite (Hpick (mkGame DUPLICATOR_ID None 1001 1 2008 8 [])).
  reflexivity.
Defined.

Lemma grid_step g x t :
  on_grid g t → x < t ≤ x + max_move g →
  (final_position g - x) `mod` (max_move g + 1) = t - x.
Proof.
  unfold on_grid. intros Hgrid Hstep.
  apply Z.mod_divide in Hgrid as [c Hc]; [|lia].
  replace (final_position g - x) with (t - x + c * (max_move g + 1)) by lia.
  rewrite Z_mod_plus_full. apply Z.mod_small. lia.
Qed.

(** A grid position below the final one is more than [max_move] away from
    it, and the positions up to [max_move] above it are off the grid. *)
Lemma on_grid_far g p :
  on_grid g p → p < final_position g → p + max_move g < final_position g.
Proof.
  intros Hgrid Hlt.
  destruct (decide (p + max_move g < final_position g)) as [|Hnear]; [done|].
  destruct (off_grid_between g (final_position g) p);
    [apply on_grid_final|lia|done].
Qed.

Lemma off_grid_above g p m :
  on_grid g p → 1 ≤ m ≤ max_move g → ¬ on_grid g (p + m).
Proof.
  intros Hgrid Hm Hgrid'. destruct (off_grid_between g (p + m) p); [done|lia|done].
Qed.

(** X3.  Every list of [winning_moves] holds one position only, possibly
    several times: for the key [x] it is [x] plus
    [(final_position - x) % (max_move + 1)], so the [max] of
    [pick_smart_move] has nothing to choose from. *)
Theorem winning_moves_entries day month year position game_mode :
  1 ≤ day + month →
  1 ≤ position →
  game_mode ∈ game_modes →
  ∃ self,
    (∀ fuel, (enough_rounds day month year position ≤ fuel)%nat →
       SpoilerBot_init fuel day month year position game_mode
       = Some (Ok self))
    ∧ ∀ x targets t,
        winning_moves self !! x = Some targets → t ∈ targets →
        t = x + (day + month + year - x) `mod` (day + month + 1).
Proof.
  intros Hm Hpos Hmode.
  destruct (SpoilerBot_init_strategy day month year position game_mode)
    as (self & Hrun & (_ & _ & _ & _ & Hf & Hmm) & _ & Ht & Hent & _);
    [done..|].
  exists self. split; [done|]. intros x targets t Hx Hin.
  destruct (moves_legal _ _ _ Ht _ _ _ Hx Hin) as [Hstep _].
  pose proof (grid_step _ x t (Hent _ _ _ Hx Hin) Hstep) as Heq.
  rewrite Hf, Hmm in Heq. lia.
Qed.

Lemma winning_moves_entries_witness :
  ∃ self,
    (∀ fuel, (enough_rounds 1 1 1851 1850 ≤ fuel)%nat →
       SpoilerBot_init fuel 1 1 1851 1850 "smart" = Some (Ok self))
    ∧ ∀ x targets t,
        winning_moves self !! x = Some targets → t ∈ targets →
        t = x + (1 + 1 + 1851 - x) `mod` (1 + 1 + 1).
Proof.
  apply (winning_moves_entries 1 1 1851 1850 "smart");
    [lia | lia | exact smart_is_a_game_mode].
Defined.

(** X4.  At a position of [initial_position, final_position) that is not
    in [winning_strategy], no move reaches the final position and every
    move of [1, max_move] lands in [winning_strategy]. *)
Theorem outside_strategy_all_moves_lose day month year position game_mode :
  1 ≤ day + month →
  1 ≤ position →
  game_mode ∈ game_modes →
  ∃ self,
    (∀ fuel, (enough_rounds day month year position ≤ fuel)%nat →
       SpoilerBot_init fuel day month year position game_mode
       = Some (Ok self))
    ∧ ∀ p move,
        position ≤ p < day + month + year →
        p ∉ winning_strategy self →
        1 ≤ move ≤ day + month →
        p + move < day + month + year ∧ p + move ∈ winning_strategy self.
Proof.
  intros Hm Hpos Hmode.
  destruct (SpoilerBot_init_strategy day month year position game_mode)
    as (self & Hrun & (_ & _ & _ & _ & Hf & Hmm) & _ & _ & _ & Hws);
    [done..|].
  exists self. split; [done|]. intros p move Hp Hout Hmove.
  assert (on_grid (game self) p) as Hgrid.
  { destruct (decide (on_grid (game self) p)) as [|Hoff]; [done|].
    destruct Hout. by apply Hws. }
  pose proof (on_grid_far _ _ Hgrid) as Hfar. rewrite Hf, Hmm in Hfar.
  split; [lia|]. apply Hws. split; [lia|].
  apply off_grid_above; [done|]. by rewrite Hmm.
Qed.

Lemma outside_strategy_all_moves_lose_witness :
  ∃ self,
    (∀ fuel, (enough_rounds 5 3 2000 1 ≤ fuel)%nat →
       SpoilerBot_init fuel 5 3 2000 1 "smart" = Some (Ok self))
    ∧ ∀ p move,
        1 ≤ p < 5 + 3 + 2000 →
        p ∉ winning_strategy self →
        1 ≤ move ≤ 5 + 3 →
        p + move < 5 + 3 + 2000 ∧ p + move ∈ winning_strategy self.
Proof.
  apply (outside_strategy_all_moves_lose 5 3 2000 1 "smart");
    [lia | lia | exact smart_is_a_game_mode].
Defined.

(** X5.  The strategy wins: at any state of the game with no winner yet
    and the position in [winning_strategy], the player to move wins by
    playing [pick_smart_move] at each of his turns, whatever the other
    player replies.  Each of these moves passes the checks of
    [perform_move]. *)
Theorem winning_strategy_wins day month year position game_mode :
  1 ≤ day + month →
  1 ≤ position →
  game_mode ∈ game_modes →
  ∃ self,
    (∀ fuel, (enough_rounds day month year position ≤ fuel)%nat →
       SpoilerBot_init fuel day month year position game_mode
       = Some (Ok self))
    ∧ ∀ g,
        final_position g = day + month + year →
        max_move g = day + month →
        winner g = None →
        current_position g ∈ winning_strategy self →
        smart_wins self g.
Proof.
  intros Hm Hpos Hmode.
  destruct (SpoilerBot_init_strategy day month year position game_mode)
    as (self & Hrun & (_ & _ & _ & _ & Hf & Hmm) & _ & Ht & Hent & Hws);
    [done..|].
  exists self. split; [done|].
  assert (∀ (n : nat) g,
            (Z.to_nat (day + month + year - current_position g) ≤ n)%nat →
            final_position g = day + month + year →
            max_move g = day + month →
            winner g = None →
            current_position g ∈ winning_strategy self →
            smart_wins self g) as Hall; [|by eauto].
  induction n as [|n IH]; intros g Hn Hgf Hgm Hw Hin.
  { apply Hws in Hin. lia. }
  destruct (pick_smart_move_on_grid self g Ht Hent Hin)
    as (Hpick & Hd & Hgrid).
  set (d := (final_position (game self) - current_position g)
            `mod` (max_move (game self) + 1)) in *.
  pose proof (Hin) as [Hrange _]%Hws.
  assert (current_position g + d ≤ day + month + year) as Hend.
  { destruct (decide (current_position g + d ≤ day + month + year));
      [done|].
    destruct (off_grid_between (game self) (current_position g + d)
                (final_position (game self))); [done|lia|].
    apply on_grid_final. }
  assert (legal d g) as Hlegal by (unfold legal; split_and!; (done || lia)).
  pose proof (perform_move_legal _ _ Hlegal) as Hmove.
  destruct (decide (current_position g + d = final_position g)) as [Hfin|Hnot].
  { eapply (smart_wins_now self g d); [exact Hpick|exact Hmove|].
    done. }
  eapply (smart_wins_later self g d); [exact Hpick|exact Hmove|done| | |].
  - exists 1. unfold legal. cbn. split_and!; (done || lia).
  - intros reply g'' Hreply.
    pose proof (perform_move_ok_inv _ _ _ Hreply) as Hl.
    rewrite (perform_move_legal _ _ Hl) in Hreply. injection Hreply as <-.
    cbn. rewrite decide_False; [done|].
    destruct Hl as (_ & Hr & _). cbn in *. intros Heq.
    destruct (off_grid_above (game self) (current_position g + d) reply);
      [done|lia|].
    rewrite Heq, Hgf, <- Hf. apply on_grid_final.
  - intros reply g'' Hreply.
    pose proof (perform_move_ok_inv _ _ _ Hreply) as Hl.
    rewrite (perform_move_legal _ _ Hl) in Hreply. injection Hreply as <-.
    destruct Hl as (_ & Hr & Hre). cbn in Hr, Hre.
    assert (¬ on_grid (game self) (current_position g + d + reply)) as Hoff.
    { apply off_grid_above; [done|lia]. }
    apply IH; cbn; [|done|done| |].
    + assert (current_position g + d + reply ≠ day + month + year).
      { intros Heq. destruct Hoff. rewrite Heq, <- Hf. apply on_grid_final. }
      lia.
    + rewrite decide_False; [done|]. intros Heq. destruct Hoff.
      rewrite Heq, Hgf, <- Hf. apply on_grid_final.
    + apply Hws. split; [|done].
      assert (current_position g + d + reply ≠ day + month + year).
      { intros Heq. destruct Hoff. rewrite Heq, <- Hf. apply on_grid_final. }
      lia.
Qed.

Lemma winning_strategy_wins_witness :
  ∃ self,
    SpoilerBot_init 10 1 1 8 1 "smart" = Some (Ok self)
    ∧ smart_wins self (mkGame SPOILER_ID None 5 1 10 2 []).
Proof.
  destruct (winning_strategy_wins 1 1 8 1 "smart")
    as (self & Hrun & Hwins); [lia | lia | exact smart_is_a_game_mode |].
  specialize (Hrun 10%nat ltac:(reflexivity)).
  exists self. split; [exact Hrun|].
  apply Hwins; [reflexivity..|].
  vm_compute in Hrun. injection Hrun as <-.
  apply (bool_decide_unpack _). vm_compute. exact I.
Defined.

End strategy_wins.

(** * Playing *)

Section play_properties.

Implicit Types (self : SpoilerBot) (g : Game) (w : world).

Lemma IO_bind_inv {A B} (m : IO A) (k : A → IO B) w r w'' :
  (m ≫= k) w = (r, w'') →
  (∃ a w', m w = (Returns a, w') ∧ k a w' = (r, w''))
  ∨ (m w = (match r with
            | Returns _ => Unfinished
            | Raises e => Raises e
            | Interrupted => Interrupted
            | TooDeep => TooDeep
            | Unfinished => Unfinished
            end, w'')
     ∧ ∀ b, r ≠ Returns b).
Proof.
  unfold mbind, IO_bind. destruct (m w) as [[a|e| | |] w'] eqn:Hm.
  - intros Hk. left. eauto.
  - intros [= <- <-]. by right.
  - intros [= <- <-]. by right.
  - intros [= <- <-]. by right.
  - intros [= <- <-]. by right.
Qed.

(** ** [read_next_move] *)

(** What [read_next_move] does, by outcome: it never raises; it leaves
    everything but the lines typed and printed as it was; the move it
    returns was typed, is within [1, max_move] and does not pass the final
    position. *)
Lemma read_next_move_spec depth w r w' :
  read_next_move depth w = (r, w') →
  the_bot w' = the_bot w ∧ draws w' = draws w ∧ drawn w' = drawn w
  ∧ match r with
    | Returns move =>
        1 ≤ move ≤ max_move (game (the_bot w))
        ∧ current_position (game (the_bot w)) + move
          ≤ final_position (game (the_bot w))
        ∧ ∃ rejected, stdin w = rejected ++ Typed move :: stdin w'
    | Interrupted => ∃ rejected, stdin w = rejected ++ CtrlC :: stdin w'
    | TooDeep => True
    | Raises _ | Unfinished => False
    end.
Proof.
  revert w. induction depth as [|depth IH]; intros w; cbn.
  { intros [= <- <-]. done. }
  destruct (stdin w) as [|[n| |] rest] eqn:Hin.
  - intros (Hb & Hd & Hn & Hr)%IH. done.
  - destruct (bool_decide _) eqn:Hok.
    + intros [= <- <-]. cbn.
      apply bool_decide_eq_true, elem_of_range in Hok.
      split_and!; try done; try lia. by exists [].
    + intros (Hb & Hd & Hn & Hr)%IH. cbn in *.
      split; [done|]. split; [done|]. split; [done|].
      destruct r as [move|e| | |]; try done.
      * destruct Hr as (? & ? & rejected & Hrej). split_and!; try lia.
        exists (Typed n :: rejected). by rewrite Hrej.
      * destruct Hr as (rejected & Hrej).
        exists (Typed n :: rejected). by rewrite Hrej.
  - intros (Hb & Hd & Hn & Hr)%IH. cbn in *.
    split; [done|]. split; [done|]. split; [done|].
    destruct r as [move|e| | |]; try done.
    + destruct Hr as (? & ? & rejected & Hrej). split_and!; try lia.
      exists (NotANumber :: rejected). by rewrite Hrej.
    + destruct Hr as (rejected & Hrej).
      exists (NotANumber :: rejected). by rewrite Hrej.
  - intros [= <- <-]. cbn. split_and!; try done. by exists [].
Qed.

(** ** The moves of the bot *)

Lemma pick_random_move_spec w :
  let g := game (the_bot w) in
  (1 ≤ max_move g → current_position g < final_position g →
   ∃ move w', pick_random_move w = (Returns move, w')
              ∧ 1 ≤ move ≤ max_move g
              ∧ current_position g + move ≤ final_position g
              ∧ the_bot w' = the_bot w ∧ stdin w' = stdin w)
  ∧ (max_move g < 1 ∨ final_position g ≤ current_position g →
     pick_random_move w = (Raises ValueError, w)).
Proof.
  intros g. unfold pick_random_move, randint. fold g. split.
  - intros Hm Hlt. rewrite bool_decide_eq_true_2 by lia.
    eexists _, _. split; [done|]. cbn.
    pose proof (Z.mod_pos_bound (draws w (drawn w))
                  (max_move g `min` (final_position g - current_position g)
                   - 1 + 1) ltac:(lia)).
    split_and!; (done || lia).
  - intros Hbad. by rewrite bool_decide_eq_false_2 by lia.
Qed.

Lemma pick_smart_move_tables (b : SpoilerBot) g0 :
  tables_ok g0 (winning_strategy b) (winning_moves b) →
  ∃ advice,
    pick_smart_move b = Ok advice
    ∧ (advice = None ↔ current_position (game b) ∉ winning_strategy b)
    ∧ ∀ move, advice = Some move →
        1 ≤ move ≤ max_move g0
        ∧ current_position (game b) + move ≤ final_position g0.
Proof.
  intros Ht. unfold pick_smart_move.
  destruct (bool_decide (current_position (game b) ∈ winning_strategy b))
    eqn:Hin.
  2: { apply bool_decide_eq_false in Hin. exists None. by split_and!. }
  apply bool_decide_eq_true in Hin.
  destruct (strategy_has_moves _ _ _ Ht _ Hin) as [targets Htargets].
  rewrite Htargets.
  destruct (py_max_nonempty targets) as [t Hmax].
  { by eapply (moves_nonempty _ _ _ Ht). }
  rewrite Hmax. apply py_max_elem in Hmax.
  destruct (moves_legal _ _ _ Ht _ _ _ Htargets Hmax) as [Hstep Hend].
  eexists. split; [done|]. unfold or_None.
  rewrite decide_False by lia. split.
  - split; [done|]. intros Hout. by destruct Hout.
  - intros move [= <-]. lia.
Qed.

Lemma playing_tables self w :
  playing self w →
  tables_ok (game self) (winning_strategy self) (winning_moves self) →
  tables_ok (game (the_bot w)) (winning_strategy (the_bot w))
            (winning_moves (the_bot w)).
Proof.
  intros (-> & -> & _ & Hi & Hf & Hm) [H1 H2 H3 H4 H5]. constructor.
  - intros p. rewrite Hi, Hf. apply H1.
  - done.
  - intros x l t Hx Ht. rewrite Hf, Hm. by eapply H3.
  - done.
  - intros x. rewrite Hi. apply H5.
Qed.

Lemma playing_set_game self w g :
  playing self w →
  initial_position g = initial_position (game (the_bot w)) →
  final_position g = final_position (game (the_bot w)) →
  max_move g = max_move (game (the_bot w)) →
  playing self (set_the_bot (with_game g (the_bot w)) w).
Proof.
  intros (? & ? & ? & ? & ? & ?) Hi Hf Hm. unfold playing. cbn.
  split_and!; congruence.
Qed.

(** A legal move applied to the game of the world. *)
Lemma on_game_perform_move w move :
  legal move (game (the_bot w)) →
  ∃ g', perform_move move (game (the_bot w)) = (Ok tt, g')
        ∧ on_game (perform_move move) w
          = (Returns tt, set_the_bot (with_game g' (the_bot w)) w)
        ∧ current_position g' = current_position (game (the_bot w)) + move
        ∧ next_player g' = next_of (next_player (game (the_bot w)))
        ∧ winner g'
          = (if decide (current_position (game (the_bot w)) + move
                        = final_position (game (the_bot w)))
             then Some (next_player (game (the_bot w))) else None)
        ∧ initial_position g' = initial_position (game (the_bot w))
        ∧ final_position g' = final_position (game (the_bot w))
        ∧ max_move g' = max_move (game (the_bot w)).
Proof.
  intros Hl. eexists. split; [by apply perform_move_legal|].
  unfold on_game. rewrite (perform_move_legal _ _ Hl). by split_and!.
Qed.

(** [smart_or_random_move], while the game goes on, yields a move that
    [perform_move] accepts: the smart move where there is one, else a
    random one. *)
Lemma smart_or_random_move_spec self w :
  tables_ok (game self) (winning_strategy self) (winning_moves self) →
  1 ≤ max_move (game self) →
  playing self w →
  current_position (game (the_bot w)) < final_position (game (the_bot w)) →
  ∃ move w',
    smart_or_random_move w = (Returns move, w')
    ∧ the_bot w' = the_bot w ∧ stdin w' = stdin w
    ∧ 1 ≤ move ≤ max_move (game (the_bot w))
    ∧ current_position (game (the_bot w)) + move
      ≤ final_position (game (the_bot w))
    ∧ (pick_smart_move (the_bot w) = Ok (Some move)
       ∨ pick_smart_move (the_bot w) = Ok None).
Proof.
  intros Ht Hm Hplay Hlt.
  pose proof (playing_tables _ _ Hplay Ht) as Ht'.
  destruct (pick_smart_move_tables _ _ Ht') as (advice & Hpick & _ & Hmove).
  destruct Hplay as (_ & _ & _ & _ & _ & Hmm).
  destruct (pick_random_move_spec w) as [Hrandom _].
  specialize (Hrandom ltac:(lia) Hlt)
    as (r & w' & Hr & ? & ? & ? & ?).
  unfold smart_or_random_move, mbind, IO_bind, call_pick_smart_move.
  rewrite Hpick. destruct advice as [move|].
  - destruct (Hmove move eq_refl) as [? ?].
    rewrite decide_False by lia. exists move, w.
    split_and!; first [done | lia | by left].
  - rewrite Hr. exists r, w'. split_and!; first [done | lia | by right].
Qed.

Lemma pick_smart_move_playing self w :
  playing self w →
  pick_smart_move (the_bot w)
  = pick_smart_move (with_game (game (the_bot w)) self).
Proof.
  intros (Hws & Hwm & _). unfold pick_smart_move. cbn.
  by rewrite Hws, Hwm.
Qed.

Lemma playing_same_bot self w w' :
  playing self w → the_bot w' = the_bot w → playing self w'.
Proof. unfold playing. by intros ? ->. Qed.

(** ** One turn of the loop *)

(** The part the three modes share: the move of the Duplicator and, unless
    it won, the reply, picked by [pick]. *)
Lemma turn_spec self depth (pick : IO Z) (Q : Game → Z → Prop) w r w' :
  playing self w →
  winner (game (the_bot w)) = None →
  (∀ w1, playing self w1 →
     current_position (game (the_bot w1))
     < final_position (game (the_bot w1)) →
     ∃ move w2,
       pick w1 = (Returns move, w2) ∧ the_bot w2 = the_bot w1
       ∧ 1 ≤ move ≤ max_move (game (the_bot w1))
       ∧ current_position (game (the_bot w1)) + move
         ≤ final_position (game (the_bot w1))
       ∧ Q (game (the_bot w1)) move) →
  (move ← read_next_move depth;
   on_game (perform_move move) ;;
   unless_won (move ← pick; on_game (perform_move move))) w = (r, w') →
  playing self w'
  ∧ match r with
    | Returns _ =>
        ∃ move g1,
          perform_move move (game (the_bot w)) = (Ok tt, g1)
          ∧ (winner g1 ≠ None ∧ game (the_bot w') = g1
             ∨ winner g1 = None
               ∧ ∃ reply,
                   perform_move reply g1 = (Ok tt, game (the_bot w'))
                   ∧ Q g1 reply)
    | Interrupted | TooDeep => game (the_bot w') = game (the_bot w)
    | Raises _ | Unfinished => False
    end.
Proof.
  intros Hplay Hw Hpick Hrun.
  apply IO_bind_inv in Hrun as [(move & w1 & Hread & Hrun)|[Hread Hr]].
  2: { destruct r as [a|e| | |]; [by destruct (Hr a)|..];
         apply read_next_move_spec in Hread as (Hb & _ & _ & Hm); try done;
         (split; [by eapply playing_same_bot|by rewrite Hb]). }
  apply read_next_move_spec in Hread as (Hb1 & _ & _ & Hm1 & Hm2 & _).
  assert (legal move (game (the_bot w1))) as Hlegal.
  { rewrite Hb1. unfold legal. split_and!; (done || lia). }
  destruct (on_game_perform_move w1 move Hlegal)
    as (g1 & Hpm & Hon & Hc1 & Hn1 & Hw1 & Hi1 & Hf1 & Hmm1).
  apply IO_bind_inv in Hrun as [(? & w2 & Hon' & Hrun)|[Hon' Hr]];
    rewrite Hon in Hon'; [|by destruct r].
  injection Hon' as _ <-.
  pose proof (playing_same_bot _ _ _ Hplay Hb1) as Hplay1.
  pose proof (playing_set_game _ _ g1 Hplay1 Hi1 Hf1 Hmm1) as Hplay2.
  rewrite Hb1 in Hpm.
  unfold unless_won in Hrun. cbn [the_bot set_the_bot with_game game] in Hrun.
  destruct (winner g1) as [who|] eqn:Hwho.
  { injection Hrun as <- <-. split; [done|].
    exists move, g1. split; [done|]. left. by rewrite Hwho. }
  destruct (Hpick _ Hplay2) as (reply & w3 & Hp & Hb3 & Hr1 & Hr2 & HQ).
  { cbn. case_decide; [done|]. rewrite Hb1 in *. lia. }
  apply IO_bind_inv in Hrun as [(? & ? & Hp' & Hrun)|[Hp' Hr]];
    rewrite Hp in Hp'; [|by destruct r].
  injection Hp' as <- <-.
  assert (legal reply (game (the_bot w3))) as Hlegal3.
  { rewrite Hb3. cbn in *. unfold legal. split_and!; (done || lia). }
  destruct (on_game_perform_move w3 reply Hlegal3)
    as (g3 & Hpm3 & Hon3 & _ & _ & _ & Hi3 & Hf3 & Hmm3).
  rewrite Hon3 in Hrun. injection Hrun as <- <-.
  pose proof (playing_same_bot _ _ _ Hplay2 Hb3) as Hplay3.
  split; [by apply playing_set_game|].
  exists move, g1. split; [done|]. right. split; [done|].
  exists reply. rewrite Hb3 in Hpm3. cbn in Hpm3, HQ. by split.
Qed.

(** One call of [self.play_mode()] while there is no winner: it never
    raises; when it returns, the game has gone through a [round], in
    advisor mode after the advice was logged. *)
Lemma call_play_mode_spec self depth w r w' :
  tables_ok (game self) (winning_strategy self) (winning_moves self) →
  1 ≤ max_move (game self) →
  playing self w →
  winner (game (the_bot w)) = None →
  call_play_mode depth w = (r, w') →
  playing self w'
  ∧ match r with
    | Returns _ =>
        ∃ g0,
          (g0 = game (the_bot w)
           ∨ ∃ advice,
               g0 = (log_operation (LogAdvice advice) (game (the_bot w))).2)
          ∧ round self g0 (game (the_bot w'))
    | Interrupted | TooDeep =>
        current_position (game (the_bot w'))
        = current_position (game (the_bot w))
        ∧ winner (game (the_bot w')) = None
    | Raises _ | Unfinished => False
    end.
Proof.
  intros Ht Hm Hplay Hw. unfold call_play_mode.
  assert (∀ w1, playing self w1 →
            current_position (game (the_bot w1))
            < final_position (game (the_bot w1)) →
            ∃ move w2,
              pick_random_move w1 = (Returns move, w2)
              ∧ the_bot w2 = the_bot w1
              ∧ 1 ≤ move ≤ max_move (game (the_bot w1))
              ∧ current_position (game (the_bot w1)) + move
                ≤ final_position (game (the_bot w1))
              ∧ (λ _ _, True) (game (the_bot w1)) move) as Hrandom.
  { intros w1 Hplay1 Hlt. destruct (pick_random_move_spec w1) as [Hr _].
    destruct Hplay1 as (_ & _ & _ & _ & _ & Hmm).
    destruct (Hr ltac:(lia) Hlt) as (move & w2 & ? & ? & ? & ? & _).
    exists move, w2. split_and!; first [done | lia]. }
  assert (∀ w1, playing self w1 →
            current_position (game (the_bot w1))
            < final_position (game (the_bot w1)) →
            ∃ move w2,
              smart_or_random_move w1 = (Returns move, w2)
              ∧ the_bot w2 = the_bot w1
              ∧ 1 ≤ move ≤ max_move (game (the_bot w1))
              ∧ current_position (game (the_bot w1)) + move
                ≤ final_position (game (the_bot w1))
              ∧ (λ g1 reply,
                   pick_smart_move (with_game g1 self) = Ok (Some reply)
                   ∨ pick_smart_move (with_game g1 self) = Ok None)
                  (game (the_bot w1)) move) as Hsmart.
  { intros w1 Hplay1 Hlt.
    destruct (smart_or_random_move_spec self w1 Ht Hm Hplay1 Hlt)
      as (move & w2 & ? & ? & _ & ? & ? & Hpick).
    rewrite (pick_smart_move_playing _ _ Hplay1) in Hpick.
    exists move, w2. split_and!; first [done | lia]. }
  assert (play_mode (the_bot w) = play_mode self) as Hmode by apply Hplay.
  destruct (play_mode (the_bot w)) eqn:Hm'.
  - intros Hrun.
    destruct (turn_spec self depth _ _ w r w' Hplay Hw Hrandom Hrun)
      as [Hplay' Hr]. split; [done|].
    destruct r as [[]|e| | |]; try done.
    + destruct Hr as (move & g1 & Hmove & Hrest).
      exists (game (the_bot w)). split; [by left|].
      exists move, g1. split; [done|].
      destruct Hrest as [?|(? & reply & ? & _)]; [by left|right].
      split; [done|]. exists reply. split; [done|]. by rewrite <- Hmode.
    + by rewrite Hr.
    + by rewrite Hr.
  - intros Hrun.
    destruct (turn_spec self depth _ _ w r w' Hplay Hw Hsmart Hrun)
      as [Hplay' Hr]. split; [done|].
    destruct r as [[]|e| | |]; try done.
    + destruct Hr as (move & g1 & Hmove & Hrest).
      exists (game (the_bot w)). split; [by left|].
      exists move, g1. split; [done|].
      destruct Hrest as [?|(? & reply & ? & ?)]; [by left|right].
      split; [done|]. by exists reply.
    + by rewrite Hr.
    + by rewrite Hr.
  - unfold play_advisor_mode. intros Hrun.
    apply IO_bind_inv in Hrun as [(advice & w1 & Hadv & Hrun)|[Hadv Hr]];
      unfold call_pick_smart_move in Hadv;
      destruct (pick_smart_move_tables _ _ (playing_tables _ _ Hplay Ht))
        as (advice' & Hpick & _); rewrite Hpick in Hadv;
      [|by destruct r].
    injection Hadv as <- <-.
    apply IO_bind_inv in Hrun as [([] & w1 & Hlog & Hrun)|[Hlog Hr]];
      [|by destruct r].
    injection Hlog as <-.
    set (w1 := set_the_bot _ w) in Hrun.
    assert (playing self w1) as Hplay1 by by apply playing_set_game.
    destruct (turn_spec self depth _ _ w1 r w' Hplay1 Hw Hsmart Hrun)
      as [Hplay' Hr]. split; [done|].
    destruct r as [[]|e| | |]; try done.
    + destruct Hr as (move & g1 & Hmove & Hrest).
      exists (game (the_bot w1)). split; [right; by exists advice'|].
      exists move, g1. split; [done|].
      destruct Hrest as [?|(? & reply & ? & ?)]; [by left|right].
      split; [done|]. by exists reply.
    + by rewrite Hr.
    + by rewrite Hr.
Qed.

(** A [round] moves the position up, not beyond the final position, and
    keeps the bounds. *)
Lemma round_progress self g g' :
  round self g g' →
  winner g = None
  ∧ current_position g < current_position g' ≤ final_position g
  ∧ initial_position g' = initial_position g
  ∧ final_position g' = final_position g
  ∧ max_move g' = max_move g
  ∧ (winner g' = None → current_position g' < final_position g)
  ∧ (winner g' ≠ None → current_position g' = final_position g).
Proof.
  intros (move & g1 & Hmove & Hrest).
  pose proof (perform_move_ok_inv _ _ _ Hmove) as Hl.
  rewrite (perform_move_legal _ _ Hl) in Hmove. injection Hmove as <-.
  destruct Hl as (Hw & Hm & Hf).
  destruct Hrest as [[Hwon ->]|(Hgo & reply & Hreply & _)].
  - cbn in *. split_and!; try done; try lia. by case_decide.
  - pose proof (perform_move_ok_inv _ _ _ Hreply) as Hl'.
    rewrite (perform_move_legal _ _ Hl') in Hreply. injection Hreply as <-.
    destruct Hl' as (_ & Hm' & Hf'). cbn in *.
    split_and!; try done; try lia.
    + destruct (decide (current_position g + move + reply
                        = final_position g)); [done|]. lia.
    + destruct (decide (current_position g + move + reply
                        = final_position g)); done.
Qed.

(** The fields of the game that a logged advice leaves alone. *)
Lemma round_start_fields w g0 :
  g0 = game (the_bot w)
  ∨ (∃ advice,
       g0 = (log_operation (LogAdvice advice) (game (the_bot w))).2) →
  next_player g0 = next_player (game (the_bot w))
  ∧ winner g0 = winner (game (the_bot w))
  ∧ current_position g0 = current_position (game (the_bot w))
  ∧ initial_position g0 = initial_position (game (the_bot w))
  ∧ final_position g0 = final_position (game (the_bot w))
  ∧ max_move g0 = max_move (game (the_bot w)).
Proof. by intros [->|[advice ->]]. Qed.

(** ** The loop of [play] *)

(** The loop never raises, needs at most as many rounds as there are
    positions left, and returns only with a winner, at the final
    position. *)
Lemma play_loop_spec self rounds depth w r w' :
  tables_ok (game self) (winning_strategy self) (winning_moves self) →
  1 ≤ max_move (game self) →
  playing self w →
  play_loop rounds depth w = (r, w') →
  playing self w'
  ∧ (∀ e, r ≠ Raises e)
  ∧ (r = Unfinished →
     (rounds ≤ Z.to_nat (final_position (game (the_bot w))
                         - current_position (game (the_bot w))))%nat)
  ∧ (r = Returns tt → winner (game (the_bot w')) ≠ None)
  ∧ (r = Returns tt → winner (game (the_bot w)) = None →
     current_position (game (the_bot w'))
     = final_position (game (the_bot w))).
Proof.
  intros Ht Hm. revert w.
  induction rounds as [|rounds IH]; intros w Hplay; cbn.
  { intros [= <- <-]. split_and!; try done. lia. }
  destruct (winner (game (the_bot w))) as [who|] eqn:Hw.
  { intros [= <- <-]. split_and!; try done. by rewrite Hw. }
  intros [([] & w1 & Hturn & Hloop)|[Hturn Hr]]%IO_bind_inv.
  - destruct (call_play_mode_spec self depth w _ w1 Ht Hm Hplay Hw Hturn)
      as (Hplay1 & g0 & Hg0 & Hround).
    destruct (round_start_fields _ _ Hg0) as (_ & _ & Hc0 & _ & Hf0 & _).
    destruct (round_progress _ _ _ Hround)
      as (_ & Hup & _ & Hf1 & _ & Hopen & Hwon).
    destruct (IH w1 Hplay1 Hloop) as (Hplay' & Hsafe & Hfuel & Hret & Hpos).
    split_and!; try done.
    + intros Hun. specialize (Hfuel Hun). lia.
    + intros Hr _.
      destruct (winner (game (the_bot w1))) as [who|] eqn:Hw1.
      * assert (w' = w1) as ->.
        { destruct rounds; cbn in Hloop; [by subst r|].
          rewrite Hw1 in Hloop. by injection Hloop. }
        rewrite Hwon by done. by rewrite Hf0.
      * rewrite Hpos by done. by rewrite Hf1, Hf0.
  - destruct r as [a|e| | |]; [by destruct (Hr a)|..];
      destruct (call_play_mode_spec self depth w _ w' Ht Hm Hplay Hw Hturn)
        as (Hplay' & Hrest); try done.
Qed.


(** What [play] adds to the loop: a line before and a line after. *)
Lemma play_inv rounds depth w r w' :
  play rounds depth w = (r, w') →
  let w0 := mkWorld (the_bot w) (stdin w) (draws w) (drawn w)
                    (stdout w ++ [GameOn]) in
  (∃ w1, play_loop rounds depth w0 = (Returns tt, w1)
         ∧ r = Returns tt
         ∧ the_bot w' = the_bot w1
         ∧ stdout w'
           = stdout w1
             ++ [if decide (winner (game (the_bot w1)) = Some DUPLICATOR_ID)
                 then Congratulations else Lost])
  ∨ (play_loop rounds depth w0 = (r, w') ∧ ∀ a, r ≠ Returns a).
Proof.
  unfold play. intros [([] & w0 & Hprint & Hrun)|[Hprint Hr]]%IO_bind_inv;
    [|by destruct r].
  injection Hprint as <-.
  apply IO_bind_inv in Hrun as [([] & w1 & Hloop & Hend)|[Hloop Hr]].
  - left. exists w1. unfold announce in Hend.
    destruct (decide _); injection Hend as <- <-; by split_and!.
  - right. by destruct r as [a|e| | |]; [destruct (Hr a)|..].
Qed.

(** X6.  [play] on the constructed bot, whatever is typed and drawn: no
    exception of the game or of the tables escapes (in particular no
    [Illegal move] assertion); the loop runs at most
    [final_position - initial_position] rounds; and when [play] returns,
    the game has a winner, the position is the final one and the last line
    printed says who won. *)
Theorem play_ends day month year position game_mode :
  1 ≤ day + month →
  1 ≤ position →
  game_mode ∈ game_modes →
  ∃ self,
    (∀ fuel, (enough_rounds day month year position ≤ fuel)%nat →
       SpoilerBot_init fuel day month year position game_mode
       = Some (Ok self))
    ∧ ∀ w rounds depth r w',
        the_bot w = self →
        play rounds depth w = (r, w') →
        (∀ e, r ≠ Raises e)
        ∧ ((Z.to_nat (day + month + year - position) < rounds)%nat →
           r ≠ Unfinished)
        ∧ (r = Returns tt →
           ∃ who,
             winner (game (the_bot w')) = Some who
             ∧ current_position (game (the_bot w')) = day + month + year
             ∧ last (stdout w')
               = Some (if decide (who = DUPLICATOR_ID)
                       then Congratulations else Lost)).
Proof.
  intros Hm Hpos Hmode.
  destruct (SpoilerBot_init_strategy day month year position game_mode)
    as (self & Hrun & (_ & Hw0 & Hc0 & _ & Hf & Hmm) & _ & Ht & _);
    [done..|].
  exists self. split; [done|].
  intros w rounds depth r w' Hbot Hplay.
  assert (playing self (mkWorld (the_bot w) (stdin w) (draws w) (drawn w)
                                (stdout w ++ [GameOn]))) as Hplaying.
  { unfold playing. cbn. by rewrite Hbot. }
  apply play_inv in Hplay as [(w1 & Hloop & -> & Hb & Hout)|[Hloop Hr]].
  - destruct (play_loop_spec self rounds depth _ _ _ Ht ltac:(lia)
                Hplaying Hloop) as (_ & _ & _ & Hwon & Hfin).
    split_and!; try done. intros _.
    specialize (Hwon eq_refl).
    specialize (Hfin eq_refl). cbn in Hfin. rewrite Hbot in Hfin.
    specialize (Hfin Hw0). rewrite Hb.
    destruct (winner (game (the_bot w1))) as [who|] eqn:Hwho; [|done].
    exists who. split_and!; [done|by rewrite Hfin, Hf|].
    rewrite Hout, last_snoc. f_equal.
    destruct (decide (Some who = Some DUPLICATOR_ID)) as [[= ->]|Hne].
    + by rewrite decide_True.
    + rewrite decide_False; [done|]. by intros ->.
  - destruct (play_loop_spec self rounds depth _ _ _ Ht ltac:(lia)
                Hplaying Hloop) as (_ & Hsafe & Hfuel & _).
    split_and!; [done| |by intros ->; destruct (Hr tt)].
    intros Hrounds ->. specialize (Hfuel eq_refl). cbn in Hfuel.
    rewrite Hbot, Hf, Hc0 in Hfuel. lia.
Qed.

Lemma play_ends_witness :
  ∃ self,
    SpoilerBot_init 10 1 1 8 1 "random" = Some (Ok self)
    ∧ ∃ w',
        play 10 5 (mkWorld self [Typed 2; Typed 2; Typed 2; Typed 2; Typed 1]
                           (λ _, 0) 0 [])
        = (Returns tt, w')
        ∧ ∃ who,
            winner (game (the_bot w')) = Some who
            ∧ current_position (game (the_bot w')) = 1 + 1 + 8
            ∧ last (stdout w')
              = Some (if decide (who = DUPLICATOR_ID)
                      then Congratulations else Lost).
Proof.
  destruct (play_ends 1 1 8 1 "random") as (self & Hrun & Hplay);
    [lia | lia | apply list_elem_of_here |].
  specialize (Hrun 10%nat ltac:(reflexivity)).
  exists self. split; [exact Hrun|].
  destruct (play 10 5 (mkWorld self
                         [Typed 2; Typed 2; Typed 2; Typed 2; Typed 1]
                         (λ _, 0) 0 [])) as [r w'] eqn:Hgo.
  assert (r = Returns tt) as ->.
  { vm_compute in Hrun. injection Hrun as <-.
    vm_compute in Hgo. by injection Hgo as <- _. }
  exists w'. split; [reflexivity|].
  destruct (Hplay (mkWorld self
                     [Typed 2; Typed 2; Typed 2; Typed 2; Typed 1]
                     (λ _, 0) 0 []) 10%nat 5%nat _ w' eq_refl Hgo)
    as (_ & _ & Hwon).
  exact (Hwon eq_refl).
Defined.

(** ** The bot wins from the grid *)

(** A round that starts with the Duplicator to move on a grid position
    ends with the Spoiler as winner or again with the Duplicator to move on
    a grid position, when the bot answers with [smart_or_random_move]. *)
Lemma round_on_grid self g g' :
  tables_ok (game self) (winning_strategy self) (winning_moves self) →
  entries_all (on_grid (game self)) (winning_moves self) →
  (∀ p, p ∈ winning_strategy self
        ↔ initial_position (game self) ≤ p < final_position (game self)
          ∧ ¬ on_grid (game self) p) →
  play_mode self ≠ random_mode →
  round self g g' →
  final_position g = final_position (game self) →
  max_move g = max_move (game self) →
  next_player g = DUPLICATOR_ID →
  on_grid (game self) (current_position g) →
  initial_position (game self) ≤ current_position g < final_position g →
  winner g' = Some SPOILER_ID
  ∨ (winner g' = None
     ∧ next_player g' = DUPLICATOR_ID
     ∧ on_grid (game self) (current_position g')
     ∧ initial_position (game self) ≤ current_position g'
       < final_position g).
Proof.
  intros Ht Hent Hws Hmode (move & g1 & Hmove & Hrest) Hf Hm Hn Hgrid Hpos.
  pose proof (perform_move_ok_inv _ _ _ Hmove) as Hl.
  rewrite (perform_move_legal _ _ Hl) in Hmove. injection Hmove as <-.
  destruct Hl as (Hw & Hmv & Hfin).
  assert (¬ on_grid (game self) (current_position g + move)) as Hoff.
  { apply off_grid_above; [done|lia]. }
  pose proof (on_grid_far _ _ Hgrid ltac:(lia)) as Hfar.
  destruct Hrest as [[Hwon _]|(_ & reply & Hreply & Hsmart)].
  { cbn in Hwon. rewrite decide_False in Hwon by lia. done. }
  specialize (Hsmart Hmode). cbn [with_game] in Hsmart.
  match type of Hreply with
  | perform_move _ ?g = _ => set (g1 := g) in *
  end.
  destruct (pick_smart_move_on_grid self g1 Ht Hent) as (Hpick & Hd & Hgrid').
  { apply Hws. cbn. split; [lia|done]. }
  rewrite Hpick in Hsmart.
  destruct Hsmart as [[= <- ]|?]; [|done].
  pose proof (perform_move_ok_inv _ _ _ Hreply) as Hl'.
  rewrite (perform_move_legal _ _ Hl') in Hreply. injection Hreply as <-.
  destruct Hl' as (_ & _ & Hfin'). cbn in *. rewrite Hn.
  rewrite next_of_DUPLICATOR, next_of_SPOILER.
  destruct (decide (current_position g + move
                    + (final_position (game self)
                       - (current_position g + move))
                      `mod` (max_move (game self) + 1)
                    = final_position g)) as [Hend|Hgo]; [by left|right].
  split_and!; try done; lia.
Qed.

Lemma play_loop_on_grid self rounds depth w r w' :
  tables_ok (game self) (winning_strategy self) (winning_moves self) →
  entries_all (on_grid (game self)) (winning_moves self) →
  (∀ p, p ∈ winning_strategy self
        ↔ initial_position (game self) ≤ p < final_position (game self)
          ∧ ¬ on_grid (game self) p) →
  1 ≤ max_move (game self) →
  play_mode self ≠ random_mode →
  playing self w →
  winner (game (the_bot w)) = Some SPOILER_ID
  ∨ (winner (game (the_bot w)) = None
     ∧ next_player (game (the_bot w)) = DUPLICATOR_ID
     ∧ on_grid (game self) (current_position (game (the_bot w)))
     ∧ initial_position (game self) ≤ current_position (game (the_bot w))
       < final_position (game self)) →
  play_loop rounds depth w = (r, w') →
  r = Returns tt →
  winner (game (the_bot w')) = Some SPOILER_ID.
Proof.
  intros Ht Hent Hws Hm Hmode. revert w.
  induction rounds as [|rounds IH]; intros w Hplay HJ; cbn.
  { by intros [= <- <-]. }
  destruct HJ as [Hwon|(Hw & Hn & Hgrid & Hpos)].
  { rewrite Hwon. by intros [= <- <-]. }
  rewrite Hw.
  intros [([] & w1 & Hturn & Hloop)|[Hturn Hr]]%IO_bind_inv Hret.
  2: { subst r. by destruct (Hr tt). }
  destruct (call_play_mode_spec self depth w _ w1 Ht Hm Hplay Hw Hturn)
    as (Hplay1 & g0 & Hg0 & Hround).
  destruct (round_start_fields _ _ Hg0) as (Hn0 & _ & Hc0 & _ & Hf0 & Hm0).
  destruct Hplay as (_ & _ & _ & _ & Hf & Hmm).
  apply (IH w1 Hplay1); [|done..].
  destruct (round_on_grid self g0 _ Ht Hent Hws Hmode Hround)
    as [?|(? & ? & ? & ?)].
  - congruence.
  - congruence.
  - congruence.
  - by rewrite Hc0.
  - rewrite Hc0, Hf0, Hf. lia.
  - by left.
  - right. split_and!; (done || lia).
Qed.

(** X7.  In smart and in advisor mode, when the initial position is below
    the final one at a multiple of [max_move + 1], the Duplicator cannot
    win: whatever is typed and drawn, if [play] returns, the winner is the
    Spoiler and the last line printed is the one for a lost game. *)
Theorem spoiler_wins_from_grid day month year position game_mode :
  1 ≤ day + month →
  1 ≤ position < day + month + year →
  (day + month + year - position) `mod` (day + month + 1) = 0 →
  game_mode = "smart" ∨ game_mode = "advisor" →
  ∃ self,
    (∀ fuel, (enough_rounds day month year position ≤ fuel)%nat →
       SpoilerBot_init fuel day month year position game_mode
       = Some (Ok self))
    ∧ ∀ w rounds depth w',
        the_bot w = self →
        play rounds depth w = (Returns tt, w') →
        winner (game (the_bot w')) = Some SPOILER_ID
        ∧ last (stdout w') = Some Lost.
Proof.
  intros Hm [Hpos Hlt] Hstart Hmode.
  assert (game_mode ∈ game_modes) as Hin.
  { unfold game_modes.
    destruct Hmode as [-> | ->]; rewrite !elem_of_cons; tauto. }
  destruct (SpoilerBot_init_strategy day month year position game_mode)
    as (self & Hrun & (Hn0 & Hw0 & Hc0 & Hi & Hf & Hmm) & Hplaymode & Ht
        & Hent & Hws); [done..|].
  exists self. split; [done|].
  intros w rounds depth w' Hbot Hplay.
  assert (play_mode self ≠ random_mode) as Hnot.
  { intros Heq. rewrite Heq in Hplaymode.
    by destruct Hmode as [-> | ->]. }
  assert (playing self (mkWorld (the_bot w) (stdin w) (draws w) (drawn w)
                                (stdout w ++ [GameOn]))) as Hplaying.
  { unfold playing. cbn. by rewrite Hbot. }
  apply play_inv in Hplay as [(w1 & Hloop & _ & Hb & Hout)|[_ Hr]];
    [|by destruct (Hr tt)].
  assert (winner (game (the_bot w1)) = Some SPOILER_ID) as Hwon.
  { eapply (play_loop_on_grid self rounds depth); try done.
    - intros p. rewrite Hws, Hi, Hf. done.
    - lia.
    - right. cbn. rewrite Hbot, Hw0, Hn0, Hc0, Hi, Hf.
      split_and!; try done; try lia.
      unfold on_grid. by rewrite Hf, Hmm. }
  split; [by rewrite Hb|].
  rewrite Hout, last_snoc, Hwon. by rewrite decide_False.
Qed.

Lemma spoiler_wins_from_grid_witness :
  ∃ self,
    SpoilerBot_init 10 1 1 8 1 "smart" = Some (Ok self)
    ∧ ∃ w',
        play 10 5 (mkWorld self [Typed 2; Typed 1; Typed 2] (λ _, 0) 0 [])
        = (Returns tt, w')
        ∧ winner (game (the_bot w')) = Some SPOILER_ID
        ∧ last (stdout w') = Some Lost.
Proof.
  destruct (spoiler_wins_from_grid 1 1 8 1 "smart")
    as (self & Hrun & Hplay); [lia | lia | reflexivity | by left |].
  specialize (Hrun 10%nat ltac:(reflexivity)).
  exists self. split; [exact Hrun|].
  destruct (play 10 5 (mkWorld self [Typed 2; Typed 1; Typed 2]
                         (λ _, 0) 0 [])) as [r w'] eqn:Hgo.
  assert (r = Returns tt) as ->.
  { vm_compute in Hrun. injection Hrun as <-.
    vm_compute in Hgo. by injection Hgo as <- _. }
  exists w'. split; [reflexivity|].
  exact (Hplay (mkWorld self [Typed 2; Typed 1; Typed 2] (λ _, 0) 0 [])
           10%nat 5%nat w' eq_refl Hgo).
Defined.



End play_properties.

(** * The date check *)

Section date_properties.

Lemma is_valid_date_true year month day :
  is_valid_date year month day = true
  ↔ 1850 < year
    ∧ 1 ≤ month ≤ 12
    ∧ 1 ≤ day
    ∧ day ≤ (if decide (month = 2) then
               if decide (year `mod` 4 = 0
                          ∧ (year `mod` 100 ≠ 0 ∨ year `mod` 400 = 0))
               then 29 else 28
             else if decide (month = 4 ∨ month = 6 ∨ month = 9 ∨ month = 11)
                  then 30 else 31).
Proof.
  unfold is_valid_date.
  destruct (bool_decide (1 ≤ month ≤ 12)) eqn:Hmonth.
  2: { apply bool_decide_eq_false in Hmonth. split; [done|]. tauto. }
  apply bool_decide_eq_true in Hmonth.
  assert (bool_decide (year `mod` 4 = 0)
          && (bool_decide (year `mod` 100 ≠ 0)
              || bool_decide (year `mod` 400 = 0))
          = bool_decide (year `mod` 4 = 0
                         ∧ (year `mod` 100 ≠ 0 ∨ year `mod` 400 = 0)))
    as ->.
  { repeat case_bool_decide; cbn; tauto. }
  assert (month = 1 ∨ month = 2 ∨ month = 3 ∨ month = 4 ∨ month = 5
          ∨ month = 6 ∨ month = 7 ∨ month = 8 ∨ month = 9 ∨ month = 10
          ∨ month = 11 ∨ month = 12) as Hcases by lia.
  case_bool_decide; destruct_or! Hcases; subst month;
    match goal with
    | |- context [Z.to_nat ?z] =>
        let n := eval vm_compute in (Z.to_nat z) in
        change (Z.to_nat z) with n
    end;
    cbn; repeat case_bool_decide; cbn; repeat case_decide;
    (split; [intros ?|intros (? & ? & ? & ?)]); first [done | lia | tauto].
Qed.

(** X11.  [is_valid_date] accepts exactly the days of the Gregorian
    calendar of the years after 1850: months 1 to 12, 30 days in April,
    June, September and November, 28 in February, 29 in a year divisible by
    4 and not by 100 or divisible by 400, and 31 otherwise.  The list is
    never indexed out of range. *)
Theorem is_valid_date_iff year month day :
  is_valid_date year month day = true
  ↔ 1850 < year
    ∧ 1 ≤ month ≤ 12
    ∧ 1 ≤ day
    ∧ day ≤ (if decide (month = 2) then
               if decide (year `mod` 4 = 0
                          ∧ (year `mod` 100 ≠ 0 ∨ year `mod` 400 = 0))
               then 29 else 28
             else if decide (month = 4 ∨ month = 6 ∨ month = 9 ∨ month = 11)
                  then 30 else 31).
Proof. apply is_valid_date_true. Qed.

(** X12.  For a date that [is_valid_date] accepts and an initial position
    that [read_initial_position] accepts, [Game.__init__] succeeds, with a
    maximum move between 2 and 43 that is smaller than the final position,
    which is at least 1853. *)
Theorem valid_date_game day month year position :
  is_valid_date year month day = true →
  1 ≤ position ≤ day + month + year →
  ∃ g, Game_init day month year position = Ok g
       ∧ 2 ≤ max_move g ≤ 43
       ∧ 1853 ≤ final_position g
       ∧ max_move g < final_position g
       ∧ initial_position g ≤ final_position g.
Proof.
  intros (Hy & Hm & Hd & Hdays)%is_valid_date_true Hpos.
  rewrite Game_init_ok by lia. eexists. split; [done|]. cbn.
  assert (day ≤ 31) by (repeat case_decide; lia). lia.
Qed.

Lemma valid_date_game_witness :
  ∃ g, Game_init 29 2 2000 1 = Ok g
       ∧ 2 ≤ max_move g ≤ 43
       ∧ 1853 ≤ final_position g
       ∧ max_move g < final_position g
       ∧ initial_position g ≤ final_position g.
Proof. apply (valid_date_game 29 2 2000 1); [reflexivity|lia]. Defined.

End date_properties.

(** * Further properties of the game, the scan and the readers *)

Section further_properties.

(** X13.  In every state that successful moves lead to from a fresh game,
    a winner is the player who moved last: [next_player], toggled after
    the winning move too, is then the other player. *)
Theorem winner_moved_last day month year position g0 g :
  Game_init day month year position = Ok g0 →
  plays g0 g →
  ∀ who, winner g = Some who →
         next_player g = next_of who ∧ next_player g ≠ who.
Proof.
  intros Hinit Hplays.
  assert (winner g0 = None) as Hfresh.
  { destruct (decide (1 ≤ position)) as [Hpos|Hpos].
    - rewrite Game_init_ok in Hinit by done. by injection Hinit as <-.
    - rewrite Game_init_raise in Hinit by lia. done. }
  induction Hplays as [|g1 move g2 _ _ Hmove]; intros who Hwho.
  { by rewrite Hfresh in Hwho. }
  pose proof (perform_move_ok_inv _ _ _ Hmove) as Hl.
  rewrite (perform_move_legal _ _ Hl) in Hmove. injection Hmove as <-.
  cbn in *. case_decide; [|done]. injection Hwho as <-.
  split; [done|apply next_of_ne].
Qed.

Lemma winner_moved_last_witness :
  ∃ g0 g, Game_init 1 1 8 7 = Ok g0 ∧ plays g0 g
          ∧ winner g = Some SPOILER_ID
          ∧ next_player g = next_of SPOILER_ID
          ∧ next_player g ≠ SPOILER_ID.
Proof.
  assert (∃ g, g = (perform_move 1 (perform_move 2
            (mkGame DUPLICATOR_ID None 7 7 10 2
               [LogStarted 7 10; LogAllowed 2 7 10])).2).2) as [g Hg].
  { eexists. reflexivity. }
  vm_compute in Hg.
  assert (plays (mkGame DUPLICATOR_ID None 7 7 10 2
                   [LogStarted 7 10; LogAllowed 2 7 10]) g) as Hplays.
  { subst g.
    eapply (plays_snoc _ _ 1); [eapply (plays_snoc _ _ 2); [apply plays_nil|] |];
      reflexivity. }
  assert (winner g = Some SPOILER_ID) as Hw by by subst g.
  exists (mkGame DUPLICATOR_ID None 7 7 10 2
            [LogStarted 7 10; LogAllowed 2 7 10]), g.
  destruct (winner_moved_last 1 1 8 7 _ g eq_refl Hplays SPOILER_ID Hw).
  by split_and!.
Defined.



(** X10.  [pick_random_move], while the maximum move is at least 1 and the
    position is below the final one, uses one draw and returns a move of
    [1, max_move] that does not pass the final position. *)
Theorem pick_random_move_legal w :
  1 ≤ max_move (game (the_bot w)) →
  current_position (game (the_bot w)) < final_position (game (the_bot w)) →
  ∃ move w',
    pick_random_move w = (Returns move, w')
    ∧ 1 ≤ move ≤ max_move (game (the_bot w))
    ∧ current_position (game (the_bot w)) + move
      ≤ final_position (game (the_bot w))
    ∧ the_bot w' = the_bot w ∧ drawn w' = S (drawn w).
Proof.
  intros Hm Hlt. destruct (pick_random_move_spec w) as [Hr _].
  destruct (Hr Hm Hlt) as (move & w' & Hpick & ? & ? & ? & _).
  exists move, w'. split_and!; try done; try lia.
  unfold pick_random_move, randint in Hpick.
  rewrite bool_decide_eq_true_2 in Hpick by lia. by injection Hpick as _ <-.
Qed.

Lemma pick_random_move_legal_witness :
  let w := mkWorld (mkSpoilerBot (mkGame SPOILER_ID None 9 1 10 2 [])
                                 random_mode ∅ ∅) [] (λ _, 7) 0 [] in
  ∃ move w',
    pick_random_move w = (Returns move, w')
    ∧ 1 ≤ move ≤ 2 ∧ 9 + move ≤ 10
    ∧ the_bot w' = the_bot w ∧ drawn w' = 1%nat.
Proof.
  intros w. apply (pick_random_move_legal w); cbn; lia.
Defined.

(** X16.  Where [pick_random_move] has no move to offer, because the
    position is not below the final one or the maximum move is below 1,
    [random.randint] raises a [ValueError] and nothing changes. *)
Theorem pick_random_move_empty_range w :
  max_move (game (the_bot w)) < 1
  ∨ final_position (game (the_bot w)) ≤ current_position (game (the_bot w)) →
  pick_random_move w = (Raises ValueError, w).
Proof. intros Hbad. by destruct (pick_random_move_spec w) as [_ ->]. Qed.

Lemma pick_random_move_empty_range_witness :
  let w := mkWorld (mkSpoilerBot (mkGame SPOILER_ID None 10 1 10 2 [])
                                 random_mode ∅ ∅) [] (λ _, 7) 0 [] in
  pick_random_move w = (Raises ValueError, w).
Proof.
  intros w. apply (pick_random_move_empty_range w). right. cbn. lia.
Defined.


(** X15 (witness). *)
Lemma winning_moves_keys_witness :
  ∃ self,
    (∀ fuel, (enough_rounds 1 1 1851 1850 ≤ fuel)%nat →
       SpoilerBot_init fuel 1 1 1851 1850 "smart" = Some (Ok self))
    ∧ winning_strategy self ⊆ dom (winning_moves self)
    ∧ (∀ x, x ∈ dom (winning_moves self) → 1850 ≤ x →
         x ∈ winning_strategy self)
    ∧ (∀ x, x ∈ dom (winning_moves self) → x < 1 + 1 + 1851).
Proof.
  apply (winning_moves_keys 1 1 1851 1850 "smart");
    [lia | exact smart_is_a_game_mode].
Defined.

(** X17.  How [SpoilerBot.__init__] fails: with the [AssertionError] of
    [Game.__init__] when the initial position is below 1, whatever the
    mode; with a [KeyError] when the position is fine and the mode is none
    of the three.  Neither case enters [find_winning_strategy]. *)
Theorem SpoilerBot_init_errors fuel day month year position game_mode :
  (position < 1 →
   SpoilerBot_init fuel day month year position game_mode
   = Some (Raise (AssertionError None)))
  ∧ (1 ≤ position → game_mode ∉ game_modes →
     SpoilerBot_init fuel day month year position game_mode
     = Some (Raise KeyError)).
Proof.
  unfold SpoilerBot_init. split.
  - intros Hpos. by rewrite Game_init_raise.
  - intros Hpos Hmode. rewrite Game_init_ok by done.
    unfold mode_implementations, game_modes in *.
    rewrite !elem_of_cons, elem_of_nil in Hmode.
    repeat case_decide; tauto.
Qed.

End further_properties.
